(** * Foodies backend: recipe router, category schema, user model, favorites

    A shallow embedding of the recipe router ([src/routes/recipeRouter.js]),
    the category creation schema ([src/schemas/categorySchema.js]) and the
    Sequelize user model, together with the favorites service contract of the
    design document, and the properties established about them. *)

From Stdlib Require Import ZArith Ascii String.
From stdpp Require Import gmap strings list sorting fin_maps.

Local Open Scope string_scope.
Local Open Scope list_scope.

(** ** Express routing

    The part of Express that [recipeRouter.js] relies on: a router is an
    ordered stack of routes, each with a method, a path pattern and an ordered
    list of handlers. A request walks the stack in registration order. *)
Module Express.

Inductive method := GET | HEAD | POST | PUT | PATCH | DELETE.

#[global] Instance method_eq_dec : EqDecision method.
Proof. solve_decision. Defined.

(** A path pattern cut at the slashes: ['/favorites'] is [[Lit "favorites"]],
    ['/:recipeId'] is [[Param "recipeId"]] and ['/'] is [[]]. *)
Inductive segment := Lit (s : string) | Param (name : string).

#[global] Instance segment_eq_dec : EqDecision segment.
Proof. solve_decision. Defined.

(** [express.Router()] is created without options, so routing is not case
    sensitive: literals are compared after lowering ASCII letters. *)
Definition lower_ascii (c : ascii) : ascii :=
  let n := nat_of_ascii c in
  if (65 <=? n)%nat && (n <=? 90)%nat then ascii_of_nat (n + 32) else c.

Fixpoint lower (s : string) : string :=
  match s with
  | EmptyString => EmptyString
  | String c s' => String (lower_ascii c) (lower s')
  end.

(** The request path below the mount point, cut at the slashes (strict
    routing is off, so a trailing slash does not count). *)
Record request := Request { req_method : method; req_path : list string }.

Definition params := list (string * string).

(** *** [decodeURIComponent]

    Strings are sequences of octets. An escape [%hh] stands for the octet
    [hh]; the octets written as escapes must form well-formed UTF-8, anything
    else is left as it is. A malformed escape is an error ([URIError]). *)
Definition hex_digit (c : ascii) : option nat :=
  let n := nat_of_ascii c in
  if (48 <=? n)%nat && (n <=? 57)%nat then Some (n - 48)
  else if (65 <=? n)%nat && (n <=? 70)%nat then Some (n - 55)
  else if (97 <=? n)%nat && (n <=? 102)%nat then Some (n - 87)
  else None.

Definition escape_octet (h1 h2 : ascii) : option nat :=
  match hex_digit h1, hex_digit h2 with
  | Some a, Some b => Some (16 * a + b)
  | _, _ => None
  end.

(** The number of octets of the sequence that octet [b] leads; a
    continuation octet and [F8..FF] lead none. *)
Definition sequence_length (b : nat) : option nat :=
  if (b <? 128)%nat then Some 1
  else if (b <? 192)%nat then None
  else if (b <? 224)%nat then Some 2
  else if (b <? 240)%nat then Some 3
  else if (b <? 248)%nat then Some 4
  else None.

Definition between (lo hi b : nat) : bool := (lo <=? b)%nat && (b <=? hi)%nat.

Definition continuation (b : nat) : bool := between 128 191 b.

(** Well-formed sequences of two to four octets (no overlong forms, no
    surrogates, nothing above U+10FFFF). *)
Definition well_formed (octets : list nat) : bool :=
  match octets with
  | [b1; b2] => between 194 223 b1 && continuation b2
  | [b1; b2; b3] =>
      (if (b1 =? 224)%nat then between 160 191 b2
       else if (b1 =? 237)%nat then between 128 159 b2
       else between 225 239 b1 && continuation b2)
      && continuation b3
  | [b1; b2; b3; b4] =>
      (if (b1 =? 240)%nat then between 144 191 b2
       else if (b1 =? 244)%nat then between 128 143 b2
       else between 241 243 b1 && continuation b2)
      && continuation b3 && continuation b4
  | _ => false
  end.

Fixpoint octets_string (octets : list nat) (s : string) : string :=
  match octets with
  | [] => s
  | b :: bs => String (ascii_of_nat b) (octets_string bs s)
  end.

(** [pending] holds the octets of the sequence being read and [need] the
    number of continuation octets still to come. *)
Fixpoint decode_from (pending : list nat) (need : nat) (s : string) : option string :=
  match need, s with
  | 0, EmptyString => Some EmptyString
  | 0, String c rest =>
      if decide (c = "%"%char) then
        match rest with
        | String h1 (String h2 rest') =>
            match escape_octet h1 h2 with
            | Some b =>
                match sequence_length b with
                | Some 1 => String (ascii_of_nat b) <$> decode_from [] 0 rest'
                | Some n => decode_from [b] (n - 1) rest'
                | None => None
                end
            | None => None
            end
        | _ => None
        end
      else String c <$> decode_from [] 0 rest
  | S k, String c (String h1 (String h2 rest')) =>
      if decide (c = "%"%char) then
        match escape_octet h1 h2 with
        | Some b =>
            if continuation b then
              match k with
              | 0 =>
                  if well_formed (pending ++ [b])
                  then octets_string (pending ++ [b]) <$> decode_from [] 0 rest'
                  else None
              | S _ => decode_from (pending ++ [b]) k rest'
              end
            else None
        | None => None
        end
      else None
  | S _, _ => None
  end.

Definition decodeURIComponent (s : string) : option string := decode_from [] 0 s.

(** *** Matching a layer

    The pattern is matched against the raw path; the value of a named
    parameter, one whole non-empty segment, is then decoded, and a segment
    that cannot be decoded is an error of the layer. *)
Inductive matching := Miss | Hit (ps : params) | Malformed.

Fixpoint match_path (pat : list segment) (path : list string) : matching :=
  match pat, path with
  | [], [] => Hit []
  | Lit s :: pat', seg :: path' =>
      if decide (lower s = lower seg) then match_path pat' path' else Miss
  | Param name :: pat', seg :: path' =>
      if decide (seg = "") then Miss
      else match match_path pat' path' with
           | Hit ps =>
               match decodeURIComponent seg with
               | Some v => Hit ((name, v) :: ps)
               | None => Malformed
               end
           | other => other
           end
  | _, _ => Miss
  end.

(** A route registered with [router.get] also serves HEAD. *)
Definition handles_method (route_method req_m : method) : bool :=
  match req_m with
  | HEAD => bool_decide (route_method = HEAD) || bool_decide (route_method = GET)
  | _ => bool_decide (route_method = req_m)
  end.

(** What a handler does with the request: [next()], [next('route')],
    [next('router')], [next(err)] (or a throw), or it answers itself. *)
Inductive outcome := Next | NextRoute | NextRouter | Fail | Respond.

Inductive final := Responded | Failed | FellThrough.

Section Router.
Context {H : Type}.

Record route := Route {
  r_method : method;
  r_path : list segment;
  r_stack : list H
}.

Record invocation := Invocation { inv_handler : H; inv_params : params }.

(** The parameters with which a route takes a request: its path matches,
    its parameters decode and it handles the method. *)
Definition match_route (r : route) (req : request) : option params :=
  if handles_method (r_method r) (req_method req)
  then match match_path (r_path r) (req_path req) with
       | Hit ps => Some ps
       | _ => None
       end
  else None.

(** The first layer of the stack that matches the request. *)
Fixpoint first_match (routes : list route) (req : request) : option route :=
  match routes with
  | [] => None
  | r :: rs =>
      match match_route r req with
      | Some _ => Some r
      | None => first_match rs req
      end
  end.

(** The behaviour of the handlers is not fixed by the router: it is given by
    [behav], which may depend on everything that ran before (handlers share
    the mutable [req] and [res]). *)
Variable behav : list invocation -> invocation -> outcome.

(** [Route.dispatch]: run the handlers in order while they call [next()];
    when the stack is exhausted the router moves on. *)
Fixpoint run_stack (ps : params) (hs : list H) (tr : list invocation)
  : list invocation * outcome :=
  match hs with
  | [] => (tr, Next)
  | h :: hs' =>
      let i := Invocation h ps in
      match behav tr i with
      | Next => run_stack ps hs' (tr ++ [i])
      | o => (tr ++ [i], o)
      end
  end.

(** What becomes of the request once the stack of a route has run: a
    [next()] or [next('route')] hands it on, everything else ends the walk. *)
Definition conclude (ran : list invocation * outcome)
    (go_on : list invocation -> list invocation * final)
  : list invocation * final :=
  match ran with
  | (tr', Next) | (tr', NextRoute) => go_on tr'
  | (tr', NextRouter) => (tr', FellThrough)
  | (tr', Fail) => (tr', Failed)
  | (tr', Respond) => (tr', Responded)
  end.

(** The walk of the stack. The path of a layer is tried first; a parameter
    that cannot be decoded is kept as the error of the walk ([err]), and
    from then on no route matches; a layer whose path matches is then asked
    for the method. With the stack exhausted a pending error ends the walk
    as a failure. *)
Fixpoint walk (err : bool) (routes : list route) (req : request)
    (tr : list invocation) : list invocation * final :=
  match routes with
  | [] => (tr, if err then Failed else FellThrough)
  | r :: rs =>
      match match_path (r_path r) (req_path req) with
      | Miss => walk err rs req tr
      | Malformed => walk true rs req tr
      | Hit ps =>
          if err then walk err rs req tr
          else if handles_method (r_method r) (req_method req)
          then conclude (run_stack ps (r_stack r) tr) (walk false rs req)
          else walk err rs req tr
      end
  end.

(** [Router.handle]: the trace of handlers invoked, and how the walk ended. *)
Definition handle (routes : list route) (req : request) (tr : list invocation)
  : list invocation * final :=
  walk false routes req tr.

End Router.

Arguments route : clear implicits.
Arguments invocation : clear implicits.

End Express.

(** ** The recipe router *)
Module RecipeRouter.
Import Express.

(** The schemas imported by the router. *)
Module Schemas.
Inductive t := addToFavorites | createRecipeSchema | paginationSchema.
End Schemas.

(** The members of [recipeController] the router refers to. *)
Module recipeController.
Inductive t :=
  | createRecipe | addToFavorites | deleteFromFavorites | getFavorites
  | deleteRecipe | getRecipes | getPopularRecipes | getUserRecipes
  | getRecipeById.
End recipeController.

Inductive handler :=
  | auth
  | uploadRecipeImage_single (field : string)
  | validateBody (schema : Schemas.t)
  | validateQuery (schema : Schemas.t)
  | controller (c : recipeController.t).

#[global] Instance schema_eq_dec : EqDecision Schemas.t.
Proof. solve_decision. Defined.
#[global] Instance controller_eq_dec : EqDecision recipeController.t.
Proof. solve_decision. Defined.
#[global] Instance handler_eq_dec : EqDecision handler.
Proof. solve_decision. Defined.

Definition post_root : route handler :=
  Route POST []
    [auth; uploadRecipeImage_single "thumb";
     validateBody Schemas.createRecipeSchema;
     controller recipeController.createRecipe].

Definition post_favorites : route handler :=
  Route POST [Lit "favorites"]
    [auth; validateBody Schemas.addToFavorites;
     controller recipeController.addToFavorites].

Definition delete_favorites : route handler :=
  Route DELETE [Lit "favorites"]
    [auth; validateBody Schemas.addToFavorites;
     controller recipeController.deleteFromFavorites].

Definition get_favorites : route handler :=
  Route GET [Lit "favorites"]
    [auth; validateQuery Schemas.paginationSchema;
     controller recipeController.getFavorites].

Definition delete_recipeId : route handler :=
  Route DELETE [Param "recipeId"]
    [auth; controller recipeController.deleteRecipe].

Definition get_root : route handler :=
  Route GET [] [controller recipeController.getRecipes].

Definition get_popular : route handler :=
  Route GET [Lit "popular"] [controller recipeController.getPopularRecipes].

Definition get_own : route handler :=
  Route GET [Lit "own"] [auth; controller recipeController.getUserRecipes].

Definition get_recipeId : route handler :=
  Route GET [Param "recipeId"] [controller recipeController.getRecipeById].

(** The stack of [recipeRouter], in registration order. *)
Definition recipeRouter : list (route handler) :=
  [post_root; post_favorites; delete_favorites; get_favorites;
   delete_recipeId; get_root; get_popular; get_own; get_recipeId].

(** The table of the HTTP surface in the design document (section 6), row
    by row: method, path, and whether authentication is required. *)
Record endpoint := Endpoint {
  e_method : method;
  e_path : list segment;
  e_auth : bool
}.

Definition interface_table : list endpoint :=
  [Endpoint POST [Lit "recipes"] true;
   Endpoint POST [Lit "recipes"; Lit "favorites"] true;
   Endpoint DELETE [Lit "recipes"; Lit "favorites"] true;
   Endpoint GET [Lit "recipes"; Lit "favorites"] true;
   Endpoint DELETE [Lit "recipes"; Param "id"] true;
   Endpoint GET [Lit "recipes"] false;
   Endpoint GET [Lit "recipes"; Lit "popular"] false;
   Endpoint GET [Lit "recipes"; Lit "own"] true;
   Endpoint GET [Lit "recipes"; Param "id"] false].

(** The table writes the paths from [/recipes] on; the router's own paths
    are relative to that mount point. *)
Definition mount : list segment := [Lit "recipes"].

(** Two patterns denote the same path when they agree up to the names of
    their parameters ([:id] in the table, [:recipeId] in the router). *)
Definition same_segment (a b : segment) : bool :=
  match a, b with
  | Lit s, Lit t => bool_decide (s = t)
  | Param _, Param _ => true
  | _, _ => false
  end.

Fixpoint same_path (p q : list segment) : bool :=
  match p, q with
  | [], [] => true
  | a :: p', b :: q' => same_segment a b && same_path p' q'
  | _, _ => false
  end.

Definition serves (r : route handler) (e : endpoint) : bool :=
  bool_decide (r_method r = e_method e) && same_path (mount ++ r_path r) (e_path e).

Definition uses_auth (r : route handler) : bool :=
  bool_decide (auth ∈ r_stack r).

(** [auth] is the first handler of the route and a controller the last. *)
Definition auth_guards_handler (r : route handler) : bool :=
  match r_stack r, last (r_stack r) with
  | auth :: _ :: _, Some (controller _) => true
  | _, _ => false
  end.

(** When [auth] does not call [next()], it is the only handler of the route
    that runs. *)
Definition guarded_by_auth (r : route handler) : Prop :=
  forall (behav : list (invocation handler) -> invocation handler -> outcome)
         (ps : params) (tr : list (invocation handler)),
    behav tr (Invocation auth ps) <> Next ->
    run_stack behav ps (r_stack r) tr
    = (tr ++ [Invocation auth ps], behav tr (Invocation auth ps)).

(** The schema a route validates the request body with, if it does. *)
Definition body_schema (r : route handler) : option Schemas.t :=
  match List.find (fun h => match h with validateBody _ => true | _ => false end)
          (r_stack r) with
  | Some (validateBody s) => Some s
  | _ => None
  end.

(** [validateBody(schema)] lets a body through when the schema accepts it;
    a route without it accepts every body. The schemas themselves live in
    [recipeSchema.js]; [accepts] stands for their validation. *)
Definition body_accepted {Body : Type} (accepts : Schemas.t -> Body -> bool)
    (r : route handler) (b : Body) : bool :=
  match body_schema r with
  | Some s => accepts s b
  | None => true
  end.

(** The routes written for the literal paths. *)
Definition dedicated (seg : string) : option (route handler) :=
  if decide (seg = "favorites") then Some get_favorites
  else if decide (seg = "popular") then Some get_popular
  else if decide (seg = "own") then Some get_own
  else None.

(** Controllers end the request: they answer or pass an error on, and no
    handler skips its route with [next('route')]. *)
Definition handlers_conclude
    (behav : list (invocation handler) -> invocation handler -> outcome) : Prop :=
  forall tr i,
    behav tr i <> NextRoute /\
    (forall c, inv_handler i = controller c -> behav tr i <> Next).

(** Middlewares pass the request on and controllers answer it. *)
Definition answering_controllers
    (tr : list (invocation handler)) (i : invocation handler) : outcome :=
  match inv_handler i with
  | controller _ => Respond
  | _ => Next
  end.

#[global] Instance route_eq_dec : EqDecision (route handler).
Proof. solve_decision. Defined.

(** The routes registered after [r]. *)
Fixpoint after_route (r : route handler) (rs : list (route handler))
  : list (route handler) :=
  match rs with
  | [] => []
  | r0 :: rs' => if decide (r0 = r) then rs' else after_route r rs'
  end.

(** Modelled from the spec: the circumstances that decide what the handlers
    named by the router do with a request. The handlers themselves
    ([middlewares/auth.js], [middlewares/upload.js], [helpers/validateBody.js],
    [helpers/validateQuery.js], [controllers/recipeControllers.js]) are not
    among the sources. *)
Record conduct := Conduct {
  signed_in : bool;
  upload_accepted : bool;
  body_valid : Schemas.t -> bool;
  query_valid : Schemas.t -> bool;
  operation_succeeds : recipeController.t -> params -> bool
}.

(** Modelled from the spec: the behaviour of the absent handlers (sections
    4.3, 6 and 7). Authentication lets a signed-in request through and fails
    the others (401); a failed validation short-circuits before the business
    logic runs (400); a controller answers with the result of its operation
    or fails with the error of the operation (403, 404, 409, 500). *)
Definition conducted (w : conduct)
    (tr : list (invocation handler)) (i : invocation handler) : outcome :=
  match inv_handler i with
  | auth => if signed_in w then Next else Fail
  | uploadRecipeImage_single _ => if upload_accepted w then Next else Fail
  | validateBody schema => if body_valid w schema then Next else Fail
  | validateQuery schema => if query_valid w schema then Next else Fail
  | controller c =>
      if operation_succeeds w c (inv_params i) then Respond else Fail
  end.

(** A request that is signed in and valid, and whose operation succeeds. *)
Definition all_well : conduct :=
  Conduct true true (fun _ => true) (fun _ => true) (fun _ _ => true).

(** *** Properties of the router *)

Lemma auth_first_guards (r : route handler) (rest : list handler) :
  r_stack r = auth :: rest -> guarded_by_auth r.
Proof.
  intros E behav ps tr Hn. rewrite E. simpl.
  by destruct (behav tr (Invocation auth ps)).
Qed.

(** C6: route by route, the router serves the rows of the interface table
    in order and runs [auth] exactly where the table requires
    authentication; there [auth] is the first handler of the route, ahead of
    the controller, and nothing else of the route runs unless [auth] calls
    [next()]. *)
Theorem auth_applied_as_tabled :
  Forall2
    (fun r e =>
       serves r e = true /\
       uses_auth r = e_auth e /\
       auth_guards_handler r = e_auth e /\
       (e_auth e = true -> guarded_by_auth r))
    recipeRouter interface_table.
Proof.
  unfold recipeRouter, interface_table.
  repeat (constructor;
          [split; [by vm_compute|]; split; [by vm_compute|];
           split; [by vm_compute|];
           first [ discriminate 1 | intros _; eapply auth_first_guards; reflexivity ]
          |]).
  constructor.
Qed.

Lemma run_stack_trace_handlers
    (behav : list (invocation handler) -> invocation handler -> outcome)
    (ps : params) (hs : list handler) (tr : list (invocation handler)) :
  forall i : invocation handler,
    i ∈ (run_stack behav ps hs tr).1 -> i ∈ tr \/ inv_handler i ∈ hs.
Proof.
  revert tr. induction hs as [|h hs IH]; intros tr i; simpl.
  - auto.
  - destruct (behav tr (Invocation h ps)) eqn:E; simpl;
      try (intros [Hi | Hi%list_elem_of_singleton]%elem_of_app;
           [by left | subst i; right; simpl; left]).
    intros Hi. apply IH in Hi as [[Hi | Hi%list_elem_of_singleton]%elem_of_app | Hi].
    + by left.
    + subst i; right; simpl; left.
    + right; by right.
Qed.

Section Dispatch.
Variable behav : list (invocation handler) -> invocation handler -> outcome.

(** A route whose last handler is a controller keeps the request when the
    handlers conclude. *)
Lemma run_stack_concludes ps mids c tr :
  handlers_conclude behav ->
  (run_stack behav ps (mids ++ [controller c]) tr).2 <> Next /\
  (run_stack behav ps (mids ++ [controller c]) tr).2 <> NextRoute.
Proof.
  intros Hc. revert tr. induction mids as [|m mids IH]; intros tr; simpl.
  - destruct (Hc tr (Invocation (controller c) ps)) as [HR HN].
    specialize (HN c eq_refl).
    destruct (behav tr (Invocation (controller c) ps)); simpl; split; congruence.
  - destruct (Hc tr (Invocation m ps)) as [HR _].
    destruct (behav tr (Invocation m ps)); simpl; try (split; congruence).
    apply IH.
Qed.

End Dispatch.

Example own_trace :
  handle answering_controllers recipeRouter (Request GET ["own"]) []
  = ([Invocation auth []; Invocation (controller recipeController.getUserRecipes) []],
     Responded).
Proof. by vm_compute. Qed.

Example recipe_id_trace :
  handle answering_controllers recipeRouter (Request GET ["6462a6f04c3d0ddd28897f9b"]) []
  = ([Invocation (controller recipeController.getRecipeById)
        [("recipeId", "6462a6f04c3d0ddd28897f9b")]],
     Responded).
Proof. by vm_compute. Qed.

(** The order of registration matters: were [/:recipeId] registered first,
    it would take [/own] as an id. *)
Example parameter_first_captures :
  handle answering_controllers [get_recipeId; get_own] (Request GET ["own"]) []
  = ([Invocation (controller recipeController.getRecipeById) [("recipeId", "own")]],
     Responded).
Proof. by vm_compute. Qed.

(** C10: POST /favorites and DELETE /favorites are answered by routes that
    validate the body with the same schema, [addToFavorites]; whatever that
    schema accepts, a body passes validation on one route exactly when it
    passes on the other. *)
Theorem favorites_routes_validate_alike
    {Body : Type} (accepts : Schemas.t -> Body -> bool) (b : Body) :
  first_match recipeRouter (Request POST ["favorites"]) = Some post_favorites /\
  first_match recipeRouter (Request DELETE ["favorites"]) = Some delete_favorites /\
  body_schema post_favorites = Some Schemas.addToFavorites /\
  body_schema delete_favorites = body_schema post_favorites /\
  (body_accepted accepts delete_favorites b = true <->
   body_accepted accepts post_favorites b = true).
Proof.
  repeat split; try by vm_compute.
Qed.

End RecipeRouter.

(** ** JSON request bodies *)
Module Json.

(** A parsed JSON value. Only whether a field is a string, and which, matters
    to the schemas below, so no induction principle is generated. *)
#[local] Unset Elimination Schemes.
Inductive value :=
  | JNull
  | JBool (b : bool)
  | JNumber (n : Z)
  | JString (s : string)
  | JArray (items : list value)
  | JObject (fields : list (string * value)).
#[local] Set Elimination Schemes.

End Json.

(** ** Joi validation, as far as [categorySchema.js] uses it *)
Module Joi.
Import Json.

Inductive code :=
  | any_required | string_base | string_empty | string_uri | object_unknown.

(** An error names the key, the rule that failed and the message the schema
    overrides for that rule, if it does. *)
Record error := Error {
  err_key : string;
  err_code : code;
  err_message : option string
}.

#[global] Instance code_eq_dec : EqDecision code.
Proof. solve_decision. Defined.

(** [Joi.string()], with [.required()] or [.optional()], [.uri()] or not,
    and the [.messages({...})] given. *)
Record string_schema := StringSchema {
  s_required : bool;
  s_uri : bool;
  s_messages : list (code * string)
}.

Definition object_schema := list (string * string_schema).

Section Validate.
(** [is_uri] stands for Joi's RFC 3986 test behind [.uri()]. *)
Variable is_uri : string -> bool.

(** The rule a value breaks, if any. A key that is absent only breaks
    [required]; a present value must be a string, not empty, and a URI where
    the schema says so. *)
Definition check_string (sc : string_schema) (v : option value) : option code :=
  match v with
  | None => if s_required sc then Some any_required else None
  | Some (JString s) =>
      if decide (s = "") then Some string_empty
      else if s_uri sc && negb (is_uri s) then Some string_uri
      else None
  | Some _ => Some string_base
  end.

Definition message_for (sc : string_schema) (c : code) : option string :=
  snd <$> List.find (fun m => bool_decide (m.1 = c)) (s_messages sc).

Definition check_key (p : gmap string value) (ks : string * string_schema)
  : option error :=
  match check_string ks.2 (p !! ks.1) with
  | Some c => Some (Error ks.1 c (message_for ks.2 c))
  | None => None
  end.

(** The errors of the declared keys, in the order of the schema. *)
Definition key_errors (sch : object_schema) (p : gmap string value) : list error :=
  omap (check_key p) sch.

(** [Joi.object({...})] does not allow keys it does not declare. *)
Definition unknown_keys (sch : object_schema) (p : gmap string value) : gset string :=
  dom p ∖ list_to_set sch.*1.

(** One error for each of them. The payload is a map from keys to values, so
    these errors come in the order of the set of keys, not in that of the
    object. *)
Definition unknown_errors (sch : object_schema) (p : gmap string value) : list error :=
  (fun k => Error k object_unknown None) <$> elements (unknown_keys sch p).

(** All the errors [schema.validate(payload)] can report; with the default
    [abortEarly] it reports the first. *)
Definition validate (sch : object_schema) (p : gmap string value) : list error :=
  key_errors sch p ++ unknown_errors sch p.

Definition accepts (sch : object_schema) (p : gmap string value) : bool :=
  bool_decide (validate sch p = []).

End Validate.
End Joi.

(** ** The category creation schema *)
Module CategorySchema.
Import Json Joi.

Definition createCategorySchema : object_schema :=
  [("name",
    StringSchema true false
      [(any_required, "Category name is required");
       (string_empty, "Category name cannot be empty")]);
   ("description",
    StringSchema false false
      [(string_empty, "Description cannot be empty")]);
   ("thumb",
    StringSchema false true
      [(string_uri, "Thumb must be a valid URL");
       (string_empty, "Thumb cannot be empty")])].

(** The condition of the design document on a category payload: a non-empty
    string [name]; [description], when present, a non-empty string; [thumb],
    when present, a non-empty string in URI format. *)
Definition non_empty_string (v : value) : Prop :=
  exists s, v = JString s /\ s <> "".

Definition described_payload (is_uri : string -> bool) (p : gmap string value) : Prop :=
  (exists v, p !! "name" = Some v /\ non_empty_string v) /\
  (forall v, p !! "description" = Some v -> non_empty_string v) /\
  (forall v, p !! "thumb" = Some v ->
             exists s, v = JString s /\ s <> "" /\ is_uri s = true).

(** A named category with a key the schema does not declare. *)
Definition coloured_soup : gmap string value :=
  <["name" := JString "Soup"]> (<["color" := JString "red"]> ∅).

(** *** Properties of the schema *)

Section Facts.
Variable is_uri : string -> bool.

Lemma check_string_none (sc : string_schema) (v : option value) :
  check_string is_uri sc v = None <->
  match v with
  | None => s_required sc = false
  | Some w => exists s, w = JString s /\ s <> "" /\
                        (s_uri sc = true -> is_uri s = true)
  end.
Proof.
  unfold check_string. destruct v as [w|]; [|destruct (s_required sc); split; congruence].
  destruct w as [| | |s| |];
    try (split; [discriminate | intros (s' & E & _); discriminate]).
  destruct (decide (s = "")) as [->|Hne].
  { split; [discriminate | intros (s' & [= <-] & Hs & _); done]. }
  destruct (s_uri sc); simpl.
  - destruct (is_uri s) eqn:Eu; simpl.
    + split; [intros _; by exists s | done].
    + split; [discriminate|].
      intros (s' & [= <-] & _ & Hu). specialize (Hu eq_refl). congruence.
  - split; [intros _; exists s; by repeat split | done].
Qed.

Lemma check_key_none (p : gmap string value) (ks : string * string_schema) :
  check_key is_uri p ks = None <-> check_string is_uri ks.2 (p !! ks.1) = None.
Proof. unfold check_key. destruct (check_string _ _ _); split; congruence. Qed.

Lemma key_errors_all_pass (sch : object_schema) (p : gmap string value) :
  key_errors is_uri sch p = [] <->
  Forall (fun ks => check_string is_uri ks.2 (p !! ks.1) = None) sch.
Proof.
  unfold key_errors. induction sch as [|ks sch IH]; simpl.
  - split; [constructor | done].
  - rewrite Forall_cons, <- IH, <- check_key_none.
    destruct (check_key is_uri p ks) as [e|].
    + split; [done | by intros [? ?]].
    + split; [by intros | by intros [_ ?]].
Qed.

Lemma key_errors_nil (p : gmap string value) :
  key_errors is_uri createCategorySchema p = [] <-> described_payload is_uri p.
Proof.
  rewrite key_errors_all_pass. unfold createCategorySchema.
  rewrite !Forall_cons, Forall_nil, !check_string_none.
  unfold described_payload, non_empty_string. simpl.
  destruct (p !! "name") as [n|], (p !! "description") as [d|],
    (p !! "thumb") as [t|].
  all: split.
  all: try (intros (Hn & Hd & Ht & _)).
  all: try (intros ((v & Hv & Hn) & Hd & Ht)).
  all: try discriminate.
  all: repeat split.
  all: try (exists n; split; [done|]).
  all: try (intros v [= <-]).
  all: try (destruct Hn as (s & -> & Hs & _); by exists s).
  all: try (destruct Hd as (s & -> & Hs & _); by exists s).
  all: try (destruct Ht as (s & -> & Hs & Hu); exists s; by auto).
  all: try (injection Hv as <-; destruct Hn as (s & -> & Hs); exists s; by auto).
  all: try (destruct (Hd d eq_refl) as (s & -> & Hs); exists s; by auto).
  all: try (destruct (Ht t eq_refl) as (s & -> & Hs & Hu); exists s; by auto).
Qed.

(** No error for an undeclared key means there is none. *)
Lemma unknown_errors_nil (sch : object_schema) (p : gmap string value) :
  unknown_errors sch p = [] <->
  forall k, is_Some (p !! k) -> k ∈ sch.*1.
Proof.
  unfold unknown_errors, unknown_keys.
  assert (Hmap : forall ks : list string,
             (fun k => Error k object_unknown None) <$> ks = [] <-> ks = []).
  { intros [|k ks]; split; done. }
  rewrite Hmap, elements_empty_iff.
  split.
  - intros He k Hk. destruct (decide (k ∈ sch.*1)) as [|Hn]; [done|].
    exfalso. apply (not_elem_of_empty (C:=gset string) k).
    apply He. apply elem_of_difference. split; [by apply elem_of_dom|].
    by rewrite elem_of_list_to_set.
  - intros Hall. apply set_equiv. intros k.
    rewrite elem_of_difference, elem_of_dom, elem_of_list_to_set.
    split; [intros [Hk Hn]; by specialize (Hall k Hk) | by intros ?%not_elem_of_empty].
Qed.

Lemma accepts_iff (p : gmap string value) :
  accepts is_uri createCategorySchema p = true <->
  described_payload is_uri p /\
  (forall k, is_Some (p !! k) -> k ∈ ["name"; "description"; "thumb"]).
Proof.
  unfold accepts, validate.
  rewrite bool_decide_eq_true, app_nil, key_errors_nil, unknown_errors_nil.
  done.
Qed.


End Facts.

(** C7, as the schema has it: a payload is accepted exactly when it has a
    non-empty string [name], its [description], if present, is a non-empty
    string, its [thumb], if present, is a non-empty string in URI format, and
    it has no key besides these three. *)
Theorem category_payload_accepted_iff
    (is_uri : string -> bool) (p : gmap string value) :
  accepts is_uri createCategorySchema p = true <->
  described_payload is_uri p /\
  (forall k, is_Some (p !! k) -> k ∈ ["name"; "description"; "thumb"]).
Proof. apply accepts_iff. Qed.

(** C7 as stated fails: a payload with a proper [name] and one more key meets
    the stated condition and is rejected. *)
Lemma undeclared_key_rejected :
  (forall is_uri, described_payload is_uri coloured_soup) /\
  (forall is_uri, accepts is_uri createCategorySchema coloured_soup = false) /\
  (forall is_uri,
      validate is_uri createCategorySchema coloured_soup
      = [Error "color" object_unknown None]).
Proof.
  split; [|split; intros is_uri; by vm_compute].
  intros is_uri. unfold described_payload, non_empty_string.
  repeat split.
  - exists (JString "Soup"). split; [by vm_compute|]. by exists "Soup".
  - intros v Hv. by vm_compute in Hv.
  - intros v Hv. by vm_compute in Hv.
Qed.

End CategorySchema.

(** ** The user model

    The [user] table behind [sequelize.define('user', {...})], and what
    Sequelize and the database do with the options the model declares:
    [allowNull: false] and [validate: { is: emailRegexp }] are checked when an
    instance is validated, [type: DataTypes.STRING], [unique: true] and the
    primary key by the database when a row is written.

    A string stands for the sequence of its characters. A value given for
    [_id], and the cutting of blanks at the end of a value that is too long,
    which some databases do in place of refusing it, are left out. *)
Module UserModel.

(** A row; a column that may hold NULL is an [option]. *)
Record user := User {
  _id : Z;
  name : option string;
  email : option string;
  password : option string;
  avatar : option string;
  token : option string;
  refreshToken : option string;
  verify : option bool;
  verificationToken : option string
}.

(** The table and the counter behind [autoIncrement]. *)
Record table := Table { rows : list user; next_id : Z }.

Definition empty : table := Table [] 1.

(** The values given to [User.create]; what is left out is [None]. *)
Record values := Values {
  v_name : option string;
  v_email : option string;
  v_password : option string;
  v_avatar : option string;
  v_token : option string;
  v_refreshToken : option string;
  v_verify : option bool;
  v_verificationToken : option string
}.

(** The values given to an update: [None] leaves the column as it is,
    [Some v] sets it to [v] (possibly NULL). *)
Record changes := Changes {
  c_name : option (option string);
  c_email : option (option string);
  c_password : option (option string);
  c_avatar : option (option string);
  c_token : option (option string);
  c_refreshToken : option (option string);
  c_verify : option (option bool);
  c_verificationToken : option (option string)
}.

Inductive violation := notNull | is_pattern.

(** The options of a column that bear on what may be stored; [allowNull]
    is true and the others are off where the model does not say. *)
Record options := Options {
  allowNull : bool;
  unique : bool;
  validate_is : option (string -> bool)
}.

Inductive failure :=
  | SequelizeValidationError (items : list (string * violation))
  | SequelizeDatabaseError
  | SequelizeUniqueConstraintError (field : string).

(** [DataTypes.STRING] without a length is VARCHAR(255). *)
Definition STRING : nat := 255.

(** The database refuses a value with more characters than the column
    holds. *)
Definition too_long (v : option string) : bool :=
  from_option (fun s => bool_decide (STRING < String.length s)%nat) false v.

Inductive operation :=
  | Create (v : values)
  | Update (id : Z) (c : changes)
  | Destroy (id : Z).

Section Model.
(** [emailRegexp] comes from [constants/auth.js]; only its test is used. *)
Variable emailRegexp : string -> bool.

(** The options of the two constrained columns, as the model declares them. *)
Definition email_options : options :=
  Options false true (Some emailRegexp).

Definition password_options : options :=
  Options false false None.

(** [allowNull: false] is checked on the value of a column as it is, before
    any validator has run. *)
Definition validate_schema (column : string) (o : options) (v : option string)
  : list (string * violation) :=
  match v with
  | None => if allowNull o then [] else [(column, notNull)]
  | Some _ => []
  end.

(** The [is] validator of a column; it does not run on NULL. *)
Definition validate_attribute (column : string) (o : options) (v : option string)
  : list (string * violation) :=
  match v, validate_is o with
  | Some s, Some pattern => if pattern s then [] else [(column, is_pattern)]
  | _, _ => []
  end.

(** Validation of an instance; a column that is skipped is [None]. The
    columns that are NULL against [allowNull: false] are reported first, in
    the order of the model, what the validators find after them. *)
Definition validate (e pw : option (option string)) : list (string * violation) :=
  from_option (validate_schema "email" email_options) [] e ++
  from_option (validate_schema "password" password_options) [] pw ++
  from_option (validate_attribute "email" email_options) [] e ++
  from_option (validate_attribute "password" password_options) [] pw.

(** The row [User.create] builds: defaults filled in ([verify: false]; the
    [null] defaults of [token] and [refreshToken] are [None] already). *)
Definition build (id : Z) (v : values) : user :=
  User id (v_name v) (v_email v) (v_password v) (v_avatar v) (v_token v)
       (v_refreshToken v)
       (Some (default false (v_verify v)))
       (v_verificationToken v).

Definition email_taken (e : option string) (us : list user) : bool :=
  bool_decide (e ∈ email <$> us).

(** [User.create]: the instance is validated; the insert is then refused by
    the database for a value that is too long or an email that is stored
    already. *)
Definition create (v : values) (t : table) : failure + table :=
  match validate (Some (v_email v)) (Some (v_password v)) with
  | (_ :: _) as items => inl (SequelizeValidationError items)
  | [] =>
      if existsb too_long
                 [v_name v; v_email v; v_password v; v_avatar v; v_token v;
                  v_refreshToken v; v_verificationToken v]
      then inl SequelizeDatabaseError
      else if unique email_options && email_taken (v_email v) (rows t)
      then inl (SequelizeUniqueConstraintError "email")
      else inr (Table (rows t ++ [build (next_id t) v]) (next_id t + 1))
  end.

Definition apply_changes (c : changes) (u : user) : user :=
  User (_id u)
       (default (name u) (c_name c))
       (default (email u) (c_email c))
       (default (password u) (c_password c))
       (default (avatar u) (c_avatar c))
       (default (token u) (c_token c))
       (default (refreshToken u) (c_refreshToken c))
       (default (verify u) (c_verify c))
       (default (verificationToken u) (c_verificationToken c)).

(** Only the columns being set are validated. *)
Definition validate_changes (c : changes) : list (string * violation) :=
  validate (c_email c) (c_password c).

Definition write_row (id : Z) (c : changes) (u : user) : user :=
  if decide (_id u = id) then apply_changes c u else u.

(** Update of the row with primary key [id]; without such a row nothing is
    written. A new email must not belong to another row. *)
Definition update (id : Z) (c : changes) (t : table) : failure + table :=
  match validate_changes c with
  | (_ :: _) as items => inl (SequelizeValidationError items)
  | [] =>
      if existsb (from_option too_long false)
                 [c_name c; c_email c; c_password c; c_avatar c; c_token c;
                  c_refreshToken c; c_verificationToken c]
      then inl SequelizeDatabaseError
      else if negb (bool_decide (id ∈ _id <$> rows t)) then inr t
      else if unique email_options &&
              from_option
                (fun e => email_taken e (filter (fun u => _id u <> id) (rows t)))
                false (c_email c)
      then inl (SequelizeUniqueConstraintError "email")
      else inr (Table (write_row id c <$> rows t) (next_id t))
  end.

Definition destroy (id : Z) (t : table) : failure + table :=
  inr (Table (filter (fun u => _id u <> id) (rows t)) (next_id t)).

Definition exec (op : operation) (t : table) : failure + table :=
  match op with
  | Create v => create v t
  | Update id c => update id c t
  | Destroy id => destroy id t
  end.

(** The table after the operation. A failed operation writes nothing; an
    insert refused for its email has taken its id from the counter all the
    same. *)
Definition step (op : operation) (t : table) : table :=
  match exec op t with
  | inr t' => t'
  | inl (SequelizeUniqueConstraintError _) =>
      match op with
      | Create _ => Table (rows t) (next_id t + 1)
      | _ => t
      end
  | inl _ => t
  end.

(** The email of a row is not NULL and matches the pattern. *)
Definition email_valid (u : user) : Prop :=
  exists e, email u = Some e /\ emailRegexp e = true.

(** What holds of the stored table: primary keys are distinct and below the
    counter, every email is valid, and no two rows share an email. *)
Record consistent (t : table) : Prop := {
  ids_distinct : NoDup (_id <$> rows t);
  ids_issued : Forall (fun u => (_id u < next_id t)%Z) (rows t);
  emails_valid : Forall email_valid (rows t);
  emails_distinct : NoDup (email <$> rows t)
}.

(** A stand-in pattern: the address contains an at sign. *)
Fixpoint has_at_sign (s : string) : bool :=
  match s with
  | EmptyString => false
  | String c s' => if decide (c = "@"%char) then true else has_at_sign s'
  end.

Definition register (mail : string) : operation :=
  Create (Values (Some "Ann") (Some mail) (Some "hash") None None None None None).

Definition rename (id : Z) (mail : option string) : operation :=
  Update id (Changes None (Some mail) None None None None None None).

(** *** The constraints are kept *)

(** What validation reports, column by column. *)
Lemma validate_items (e pw : option (option string)) :
  validate e pw
  = (if decide (e = Some None) then [("email", notNull)] else []) ++
    (if decide (pw = Some None) then [("password", notNull)] else []) ++
    match e with
    | Some (Some s) => if emailRegexp s then [] else [("email", is_pattern)]
    | _ => []
    end.
Proof.
  unfold validate.
  destruct e as [[s|]|], pw as [[p|]|]; simpl; try done.
  all: by destruct (emailRegexp s).
Qed.

Lemma validate_passes (e pw : option (option string)) :
  validate e pw = [] ->
  (forall v, e = Some v -> exists s, v = Some s /\ emailRegexp s = true) /\
  (forall v, pw = Some v -> is_Some v).
Proof.
  rewrite validate_items.
  destruct e as [[s|]|], pw as [[p|]|]; simpl; try done.
  all: try (destruct (emailRegexp s) eqn:E; [|done]).
  all: intros _; split; intros v [= <-]; eauto.
Qed.

Lemma NoDup_fmap_filter {A B : Type} (f : A -> B) (P : A -> Prop)
    `{forall x, Decision (P x)} (l : list A) :
  NoDup (f <$> l) -> NoDup (f <$> filter P l).
Proof.
  induction l as [|x l IH]; [done|].
  rewrite fmap_cons, NoDup_cons. intros [Hx Hl].
  rewrite filter_cons. destruct (decide (P x)); [|by apply IH].
  rewrite fmap_cons, NoDup_cons. split; [|by apply IH].
  intros (y & Hy & Hin%list_elem_of_filter)%list_elem_of_fmap.
  apply Hx, list_elem_of_fmap. exists y. tauto.
Qed.

Lemma Forall_filter_keep {A : Type} (Q : A -> Prop) (P : A -> Prop)
    `{forall x, Decision (P x)} (l : list A) :
  Forall Q l -> Forall Q (filter P l).
Proof.
  rewrite !Forall_forall. intros HQ x [_ Hx]%list_elem_of_filter. by apply HQ.
Qed.

Lemma create_consistent (v : values) (t t' : table) :
  consistent t -> create v t = inr t' -> consistent t'.
Proof.
  intros [Hid Hlt Hval Hem]. unfold create.
  destruct (validate (Some (v_email v)) (Some (v_password v)))
    as [|i items] eqn:Hv; [|done].
  apply validate_passes in Hv as [He _]. specialize (He _ eq_refl).
  destruct (existsb too_long _); [done|].
  unfold email_taken. simpl. case_bool_decide as Htaken; [done|].
  intros [= <-]. split; simpl.
  - rewrite fmap_app. apply NoDup_app. split; [done|]. split; [|apply NoDup_singleton].
    intros i (u & Hi & Hu)%list_elem_of_fmap Hnew%list_elem_of_singleton.
    rewrite Forall_forall in Hlt. specialize (Hlt u Hu).
    simpl in Hlt, Hnew. lia.
  - apply Forall_app. split.
    + eapply Forall_impl; [exact Hlt|]. simpl. intros; lia.
    + apply Forall_singleton. simpl. lia.
  - apply Forall_app. split; [done|]. by apply Forall_singleton.
  - rewrite fmap_app. apply NoDup_app. split; [done|]. split; [|apply NoDup_singleton].
    intros e He' Hnew%list_elem_of_singleton. simpl in Hnew. by subst e.
Qed.

Lemma destroy_consistent (id : Z) (t t' : table) :
  consistent t -> destroy id t = inr t' -> consistent t'.
Proof.
  intros [Hid Hlt Hval Hem] [= <-]. split; simpl.
  - by apply NoDup_fmap_filter.
  - by apply Forall_filter_keep.
  - by apply Forall_filter_keep.
  - by apply NoDup_fmap_filter.
Qed.

Lemma write_row_id (id : Z) (c : changes) (u : user) :
  _id (write_row id c u) = _id u.
Proof. unfold write_row. by destruct (decide (_id u = id)). Qed.

Lemma write_row_ids (id : Z) (c : changes) (us : list user) :
  _id <$> (write_row id c <$> us) = _id <$> us.
Proof.
  rewrite <- list_fmap_compose. apply list_fmap_ext.
  intros _ u _. apply write_row_id.
Qed.

Lemma write_row_email (id : Z) (c : changes) (u : user) :
  email (write_row id c u)
  = if decide (_id u = id) then default (email u) (c_email c) else email u.
Proof. unfold write_row. by destruct (decide (_id u = id)). Qed.

(** Rows other than [id] are left alone. *)
Lemma write_row_absent (id : Z) (c : changes) (us : list user) :
  id ∉ _id <$> us -> write_row id c <$> us = us.
Proof.
  induction us as [|u us IH]; [done|].
  rewrite !fmap_cons, not_elem_of_cons. intros [Hu Hus].
  rewrite IH by done. unfold write_row.
  destruct (decide (_id u = id)); [congruence | done].
Qed.

Lemma filter_other_absent (id : Z) (us : list user) :
  id ∉ _id <$> us -> filter (fun u => _id u <> id) us = us.
Proof.
  induction us as [|u us IH]; [done|].
  rewrite fmap_cons, not_elem_of_cons. intros [Hu Hus].
  rewrite filter_cons. destruct (decide (_id u <> id)) as [|Hn].
  - by rewrite IH.
  - exfalso. apply Hn. congruence.
Qed.

Lemma write_row_emails_distinct (id : Z) (c : changes) (e : option string)
    (us : list user) :
  c_email c = Some e ->
  NoDup (_id <$> us) ->
  NoDup (email <$> us) ->
  e ∉ email <$> filter (fun u => _id u <> id) us ->
  NoDup (email <$> (write_row id c <$> us)).
Proof.
  intros Hc. induction us as [|u us IH]; [intros; constructor|].
  rewrite !fmap_cons, !NoDup_cons. intros [Hid Hids] [Hem Hems] Hfree.
  rewrite write_row_email, Hc. simpl.
  rewrite filter_cons in Hfree.
  destruct (decide (_id u = id)) as [Heq|Hne].
  - subst id. destruct (decide (_id u <> _id u)); [done|].
    rewrite write_row_absent by done.
    rewrite filter_other_absent in Hfree by done. by split.
  - destruct (decide (_id u <> id)); [|done].
    rewrite fmap_cons, not_elem_of_cons in Hfree. destruct Hfree as [Hue Hfree].
    split; [|by apply IH].
    intros (w & Hw & Hin)%list_elem_of_fmap.
    apply list_elem_of_fmap in Hin as (w0 & -> & Hin).
    rewrite write_row_email, Hc in Hw. simpl in Hw.
    destruct (decide (_id w0 = id)); [congruence|].
    apply Hem, list_elem_of_fmap. by exists w0.
Qed.

Lemma update_consistent (id : Z) (c : changes) (t t' : table) :
  consistent t -> update id c t = inr t' -> consistent t'.
Proof.
  intros Ht. pose proof Ht as [Hid Hlt Hval Hem]. unfold update.
  destruct (validate_changes c) as [|i items] eqn:Hv; [|done].
  apply validate_passes in Hv as [He _].
  destruct (existsb (from_option too_long false) _); [done|].
  case_bool_decide as Hpresent; simpl; [|by intros [= <-]].
  destruct (c_email c) as [e|] eqn:Hc; simpl in *.
  - destruct (He _ eq_refl) as (s & -> & Hs).
    unfold email_taken. case_bool_decide as Htaken; [done|].
    intros [= <-]. split; simpl.
    + by rewrite write_row_ids.
    + rewrite Forall_fmap. eapply Forall_impl; [exact Hlt|].
      intros u Hu. simpl. by rewrite write_row_id.
    + rewrite Forall_fmap. eapply Forall_impl; [exact Hval|].
      intros u Hu. unfold email_valid. simpl. rewrite write_row_email, Hc.
      destruct (decide (_id u = id)); [by exists s | done].
    + by eapply write_row_emails_distinct.
  - intros [= <-].
    assert (Hsame : email <$> (write_row id c <$> rows t) = email <$> rows t).
    { rewrite <- list_fmap_compose. apply list_fmap_ext.
      intros _ u _. simpl. rewrite write_row_email, Hc.
      by destruct (decide (_id u = id)). }
    split; simpl.
    + by rewrite write_row_ids.
    + rewrite Forall_fmap. eapply Forall_impl; [exact Hlt|].
      intros u Hu. simpl. by rewrite write_row_id.
    + rewrite Forall_fmap. eapply Forall_impl; [exact Hval|].
      intros u Hu. unfold email_valid. simpl. rewrite write_row_email, Hc.
      by destruct (decide (_id u = id)).
    + by rewrite Hsame.
Qed.

(** Moving the counter on keeps a table consistent. *)
Lemma skip_id_consistent (t : table) :
  consistent t -> consistent (Table (rows t) (next_id t + 1)).
Proof.
  intros [Hid Hlt Hval Hem]. split; simpl; try done.
  eapply Forall_impl; [exact Hlt|]. simpl. intros; lia.
Qed.

Lemma step_consistent (op : operation) (t : table) :
  consistent t -> consistent (step op t).
Proof.
  intros Ht. unfold step. destruct (exec op t) as [f|t'] eqn:E.
  { destruct f; [done | done |].
    destruct op; [by apply skip_id_consistent | done | done]. }
  destruct op; simpl in E.
  - by eapply create_consistent.
  - by eapply update_consistent.
  - by eapply destroy_consistent.
Qed.

Lemma empty_consistent : consistent empty.
Proof. split; simpl; constructor. Qed.

End Model.
(** Every table reached from the empty one by operations on the model is
    consistent. *)
Lemma run_consistent (emailRegexp : string -> bool) (ops : list operation) :
  consistent emailRegexp (foldl (fun t op => step emailRegexp op t) empty ops).
Proof.
  induction ops as [|op ops IH] using rev_ind; simpl.
  - apply empty_consistent.
  - rewrite foldl_app. simpl. by apply step_consistent.
Qed.

(** C8: on a consistent table, after any create, update or destroy the table
    is consistent again: every stored email is non-null and matches
    [emailRegexp], and two rows with the same email are the same row. *)
Theorem email_constraints_preserved
    (emailRegexp : string -> bool) (op : operation) (t : table) :
  consistent emailRegexp t ->
  consistent emailRegexp (step emailRegexp op t) /\
  (forall u, u ∈ rows (step emailRegexp op t) ->
             exists e, email u = Some e /\ emailRegexp e = true) /\
  (forall i j u w,
      rows (step emailRegexp op t) !! i = Some u ->
      rows (step emailRegexp op t) !! j = Some w ->
      email u = email w -> i = j).
Proof.
  intros Ht. apply (step_consistent emailRegexp op) in Ht.
  split; [done|]. destruct Ht as [_ _ Hval Hem]. split.
  - intros u Hu. rewrite Forall_forall in Hval. by apply Hval.
  - intros i j u w Hi Hj Huw.
    eapply NoDup_lookup; [exact Hem | |].
    + rewrite list_lookup_fmap, Hi. reflexivity.
    + rewrite list_lookup_fmap, Hj. simpl. by rewrite Huw.
Qed.

Example second_registration_rejected :
  exec has_at_sign (register "ann@food.ie") (step has_at_sign (register "ann@food.ie") empty)
  = inl (SequelizeUniqueConstraintError "email").
Proof. by vm_compute. Qed.

Example malformed_email_rejected :
  exec has_at_sign (register "ann") empty
  = inl (SequelizeValidationError [("email", is_pattern)]).
Proof. by vm_compute. Qed.

Example null_email_rejected :
  exec has_at_sign (rename 1 None) (step has_at_sign (register "ann@food.ie") empty)
  = inl (SequelizeValidationError [("email", notNull)]).
Proof. by vm_compute. Qed.

Lemma email_constraints_preserved_on_create :
  consistent has_at_sign empty /\
  consistent has_at_sign (step has_at_sign (register "ann@food.ie") empty) /\
  (forall u, u ∈ rows (step has_at_sign (register "ann@food.ie") empty) ->
             exists e, email u = Some e /\ has_at_sign e = true) /\
  (forall i j u w,
      rows (step has_at_sign (register "ann@food.ie") empty) !! i = Some u ->
      rows (step has_at_sign (register "ann@food.ie") empty) !! j = Some w ->
      email u = email w -> i = j).
Proof.
  split; [apply empty_consistent|].
  apply (email_constraints_preserved has_at_sign (register "ann@food.ie") empty).
  apply empty_consistent.
Defined.

End UserModel.

(** ** The favorites service and recipe retrieval

    [recipeControllers.js] and the services behind it are not part of the
    sources at hand; the operations below follow sections 3, 4.1, 4.2 and 7
    of the design document. *)
Module Favorites.

(** Modelled from the spec: the errors the absent services raise, after the
    taxonomy of section 7. *)
Inductive error :=
  | BadRequest | Unauthorized | Forbidden | NotFound | Conflict | Internal.

Definition status (e : error) : Z :=
  match e with
  | BadRequest => 400
  | Unauthorized => 401
  | Forbidden => 403
  | NotFound => 404
  | Conflict => 409
  | Internal => 500
  end.

(** Modelled from the spec: the Recipe entity of the absent recipe model
    (section 3), with the fields the operations below read. *)
Record recipe := Recipe {
  recipe_id : string;
  title : string;
  ownerId : Z
}.

(** Modelled from the spec: the Favorite join entity of the absent models
    (section 3), with the time the pair was created. *)
Record favorite := Favorite {
  userId : Z;
  recipeId : string;
  favoritedAt : nat
}.

#[global] Instance recipe_eq_dec : EqDecision recipe.
Proof. solve_decision. Defined.
#[global] Instance favorite_eq_dec : EqDecision favorite.
Proof. solve_decision. Defined.

(** Modelled from the spec: the stored state the absent services work on:
    users, recipes, favorite pairs, and the clock that stamps new pairs. *)
Record store := Store {
  users : list UserModel.user;
  recipes : list recipe;
  favorites : list favorite;
  now : nat
}.

(** Modelled from the spec: the lookup of a recipe by id in the absent
    services. *)
Definition find_recipe (r : string) (st : store) : option recipe :=
  List.find (fun x => bool_decide (recipe_id x = r)) (recipes st).

Definition recipe_exists (r : string) (st : store) : bool :=
  bool_decide (is_Some (find_recipe r st)).

(** Modelled from the spec: the lookup of a favorite pair in the absent
    services. *)
Definition is_pair (u : Z) (r : string) (f : favorite) : bool :=
  bool_decide (userId f = u) && bool_decide (recipeId f = r).

Definition is_favorite (u : Z) (r : string) (st : store) : bool :=
  existsb (is_pair u r) (favorites st).

(** Modelled from the spec: [addToFavorites] of the absent recipe service
    (section 4.1): NotFound if the recipe does not exist, Conflict if the
    pair already exists, otherwise the pair is created. *)
Definition addToFavorites (u : Z) (r : string) (st : store) : error + store :=
  if negb (recipe_exists r st) then inl NotFound
  else if is_favorite u r st then inl Conflict
  else inr (Store (users st) (recipes st)
                  (favorites st ++ [Favorite u r (now st)])
                  (S (now st))).

(** Modelled from the spec: [removeFromFavorites] of the absent recipe
    service (section 4.1): NotFound if the recipe does not exist, Conflict if
    the pair does not exist (the 409 "Recipe not in favorites" of the
    router's documentation), otherwise the pair is deleted. *)
Definition removeFromFavorites (u : Z) (r : string) (st : store) : error + store :=
  if negb (recipe_exists r st) then inl NotFound
  else if negb (is_favorite u r st) then inl Conflict
  else inr (Store (users st) (recipes st)
                  (filter (fun f => is_pair u r f = false) (favorites st))
                  (now st)).

(** The stored state after a call: a failed call stores nothing. *)
Definition after (res : error + store) (st : store) : store :=
  match res with
  | inr st' => st'
  | inl _ => st
  end.

(** A query parameter as supplied: an integer, or something else. *)
Inductive supplied := Integer (z : Z) | NotInteger (text : string).

(** Modelled from the spec: the pagination check of the absent
    [paginationSchema] (sections 4.1 and 4.3): an unspecified parameter takes
    its default, a supplied one must be a positive integer. *)
Definition pagination_value (dflt : nat) (p : option supplied) : option nat :=
  match p with
  | None => Some dflt
  | Some (Integer z) => if (0 <? z)%Z then Some (Z.to_nat z) else None
  | Some (NotInteger _) => None
  end.

(** Later pairs first. *)
Definition newer_first (a b : favorite * recipe) : Prop :=
  favoritedAt b.1 <= favoritedAt a.1.

#[global] Instance newer_first_dec : RelDecision newer_first.
Proof. intros a b. unfold newer_first. apply _. Defined.

(** Modelled from the spec: the join of the absent [listFavorites] (section
    4.1): the favorites of a user with their recipes. *)
Definition joined (u : Z) (st : store) : list (favorite * recipe) :=
  omap (fun f => (fun x => (f, x)) <$> find_recipe (recipeId f) st)
       (filter (fun f => userId f = u) (favorites st)).

(** Modelled from the spec: the ordering of the absent [listFavorites]
    (section 4.1): the whole sequence the pages are cut from, latest first. *)
Definition favorites_of (u : Z) (st : store) : list (favorite * recipe) :=
  merge_sort newer_first (joined u st).

(** Modelled from the spec: page/limit slicing of an ordered sequence
    (glossary, Pagination), done in the absent services. *)
Definition page_of {A : Type} (page limit : nat) (l : list A) : list A :=
  take limit (drop ((page - 1) * limit) l).

(** Modelled from the spec: [listFavorites] of the absent recipe service
    (section 4.1): a page of the recipes joined through the favorites
    relation, most recently favorited first; page and limit default to 1 and
    10; BadRequest on a non-positive or non-integer page or limit. *)
Definition listFavorites (u : Z) (page limit : option supplied) (st : store)
  : error + list recipe :=
  match pagination_value 1 page, pagination_value 10 limit with
  | Some p, Some l => inr (snd <$> page_of p l (favorites_of u st))
  | _, _ => inl BadRequest
  end.

(** Modelled from the spec: the favorite count the absent
    [listPopularRecipes] ranks by (section 4.2). *)
Definition favorite_count (st : store) (x : recipe) : nat :=
  length (filter (fun f => recipeId f = recipe_id x) (favorites st)).

Definition more_popular (st : store) (a b : recipe) : Prop :=
  favorite_count st b <= favorite_count st a.

#[global] Instance more_popular_dec (st : store) : RelDecision (more_popular st).
Proof. intros a b. unfold more_popular. apply _. Defined.

(** Modelled from the spec: [listPopularRecipes] of the absent recipe
    service (section 4.2): the recipes ranked by favorite count, descending;
    the order among equal counts is left open there. *)
Definition listPopularRecipes (st : store) : list recipe :=
  merge_sort (more_popular st) (recipes st).

(** A user favorites a given recipe at most once (section 3). *)
Definition pairs_unique (st : store) : Prop :=
  NoDup ((fun f => (userId f, recipeId f)) <$> favorites st).

(** The condition under which section 4.1 has a parameter refused. *)
Definition not_positive_integer (p : option supplied) : Prop :=
  match p with
  | None => False
  | Some (Integer z) => (z <= 0)%Z
  | Some (NotInteger _) => True
  end.

(** A store with two recipes and one favorite. *)
Definition pantry : store :=
  Store []
        [Recipe "r1" "Borscht" 1; Recipe "r2" "Varenyky" 2]
        [Favorite 7 "r1" 0]
        1.

(** Twelve recipes, favorited one after the other by user 7; [m] also by
    user 8. *)
Definition book : list string :=
  ["a"; "b"; "c"; "d"; "e"; "f"; "g"; "h"; "i"; "j"; "k"; "m"].

Definition shelf : store :=
  foldl (fun st r => after (addToFavorites 7 r st) st)
        (Store [] ((fun r => Recipe r r 1) <$> book) [Favorite 8 "m" 0] 1)
        book.

(** *** What the lookups decide *)

Lemma recipe_exists_iff (r : string) (st : store) :
  recipe_exists r st = true <-> exists x, x ∈ recipes st /\ recipe_id x = r.
Proof.
  unfold recipe_exists, find_recipe. rewrite bool_decide_eq_true. split.
  - intros [x [Hx Hr%bool_decide_eq_true]%find_some].
    exists x. by rewrite list_elem_of_In.
  - intros (x & Hx%list_elem_of_In & Hr).
    destruct (List.find _ (recipes st)) as [y|] eqn:E; [by eexists|].
    exfalso. eapply find_none in E; [|exact Hx].
    simpl in E. by apply bool_decide_eq_false in E.
Qed.

Lemma is_favorite_iff (u : Z) (r : string) (st : store) :
  is_favorite u r st = true <->
  exists f, f ∈ favorites st /\ userId f = u /\ recipeId f = r.
Proof.
  unfold is_favorite, is_pair. rewrite existsb_exists. split.
  - intros (f & Hf%list_elem_of_In & Hp).
    apply andb_true_iff in Hp as [Hu%bool_decide_eq_true Hr%bool_decide_eq_true].
    by exists f.
  - intros (f & Hf%list_elem_of_In & Hu & Hr). exists f. split; [done|].
    by rewrite !bool_decide_eq_true_2.
Qed.

(** *** Adding and removing *)

Lemma is_favorite_after_add (u : Z) (r : string) (fs : list favorite) (t : nat) :
  existsb (is_pair u r) (fs ++ [Favorite u r t]) = true.
Proof.
  rewrite existsb_app. simpl. unfold is_pair at 2. simpl.
  rewrite !bool_decide_eq_true_2 by done. by rewrite orb_true_r.
Qed.

Lemma filter_is_pair_none (u : Z) (r : string) (fs : list favorite) :
  existsb (is_pair u r) fs = false ->
  filter (fun f => is_pair u r f = true) fs = [].
Proof.
  induction fs as [|f fs IH]; [done|]. simpl.
  intros [Hf Hfs]%orb_false_elim. rewrite filter_cons.
  destruct (decide (is_pair u r f = true)); [congruence | by apply IH].
Qed.

(** C1: [addToFavorites] fails with NotFound when the recipe does not exist
    and with Conflict when the pair exists; otherwise it succeeds, stores
    exactly one new pair [(u, r)] and nothing else, and a second identical
    call fails with Conflict, so that the two calls together add one pair. *)
Theorem addToFavorites_contract (u : Z) (r : string) (st : store) :
  (recipe_exists r st = false -> addToFavorites u r st = inl NotFound) /\
  (recipe_exists r st = true -> is_favorite u r st = true ->
   addToFavorites u r st = inl Conflict) /\
  (recipe_exists r st = true -> is_favorite u r st = false ->
   exists st',
     addToFavorites u r st = inr st' /\
     users st' = users st /\ recipes st' = recipes st /\
     (exists f, favorites st' = favorites st ++ [f] /\
                userId f = u /\ recipeId f = r) /\
     length (filter (fun f => is_pair u r f = true) (favorites st')) = 1 /\
     addToFavorites u r st' = inl Conflict /\
     length (favorites (after (addToFavorites u r st') st'))
     = S (length (favorites st))).
Proof.
  unfold addToFavorites. repeat split.
  - by intros ->.
  - by intros -> ->.
  - intros Hr Hf. rewrite Hr, Hf. simpl. eexists. split; [reflexivity|]. simpl.
    repeat split.
    + by eexists.
    + rewrite filter_app, filter_is_pair_none by done.
      rewrite filter_cons, filter_nil. unfold is_pair. simpl.
      rewrite !bool_decide_eq_true_2 by done. simpl.
      by destruct (decide (true = true)).
    + unfold recipe_exists, find_recipe, is_favorite in *. simpl.
      rewrite Hr, is_favorite_after_add. done.
    + unfold recipe_exists, find_recipe, is_favorite in *. simpl.
      rewrite Hr, is_favorite_after_add. simpl.
      rewrite length_app. simpl. lia.
Qed.

(** C2: when the pair [(u, r)] is not stored, [removeFromFavorites] fails,
    with NotFound or Conflict, and the stored state is what it was. *)
Theorem removeFromFavorites_absent_pair (u : Z) (r : string) (st : store) :
  is_favorite u r st = false ->
  (exists e, removeFromFavorites u r st = inl e /\
             (e = NotFound \/ e = Conflict)) /\
  removeFromFavorites u r st
  = inl (if recipe_exists r st then Conflict else NotFound) /\
  after (removeFromFavorites u r st) st = st.
Proof.
  intros Hf. unfold removeFromFavorites. rewrite Hf.
  destruct (recipe_exists r st); simpl; repeat split; eauto.
Qed.

Lemma removeFromFavorites_absent_pair_pantry :
  is_favorite 7 "r2" pantry = false /\
  (exists e, removeFromFavorites 7 "r2" pantry = inl e /\
             (e = NotFound \/ e = Conflict)) /\
  removeFromFavorites 7 "r2" pantry
  = inl (if recipe_exists "r2" pantry then Conflict else NotFound) /\
  after (removeFromFavorites 7 "r2" pantry) pantry = pantry.
Proof.
  split; [reflexivity|].
  apply (removeFromFavorites_absent_pair 7 "r2" pantry). reflexivity.
Defined.

Example add_twice_pantry :
  addToFavorites 7 "r2" (after (addToFavorites 7 "r2" pantry) pantry) = inl Conflict /\
  addToFavorites 7 "r9" pantry = inl NotFound /\
  removeFromFavorites 7 "r2" pantry = inl Conflict /\
  favorites (after (removeFromFavorites 7 "r1" pantry) pantry) = [].
Proof. by vm_compute. Qed.

(** *** Listing *)

#[local] Instance newer_first_total : Total newer_first.
Proof. intros a b. unfold newer_first. lia. Qed.

#[local] Instance newer_first_trans : Transitive newer_first.
Proof. intros a b c. unfold newer_first. lia. Qed.

#[local] Instance more_popular_total (st : store) : Total (more_popular st).
Proof. intros a b. unfold more_popular. lia. Qed.

#[local] Instance more_popular_trans (st : store) : Transitive (more_popular st).
Proof. intros a b c. unfold more_popular. lia. Qed.

Lemma pagination_value_refused (dflt : nat) (p : option supplied) :
  pagination_value dflt p = None <-> not_positive_integer p.
Proof.
  unfold pagination_value, not_positive_integer.
  destruct p as [[z|t]|]; [|done..].
  destruct (Z.ltb_spec 0 z); split; (done || lia).
Qed.

Lemma joined_spec (u : Z) (st : store) (f : favorite) (x : recipe) :
  (f, x) ∈ joined u st <->
  f ∈ favorites st /\ userId f = u /\ find_recipe (recipeId f) st = Some x.
Proof.
  unfold joined. rewrite list_elem_of_omap. split.
  - intros (g & [Hu Hg]%list_elem_of_filter & Hx).
    destruct (find_recipe (recipeId g) st) as [y|] eqn:E; [|done].
    simpl in Hx. injection Hx as -> ->. done.
  - intros (Hf & Hu & Hx). exists f. split; [by apply list_elem_of_filter|].
    by rewrite Hx.
Qed.

(** In a strongly sorted list the earlier element is related to the later. *)
Lemma StronglySorted_lookup_lt {A : Type} (R : relation A) (l : list A)
    (i j : nat) (a b : A) :
  StronglySorted R l -> i < j -> l !! i = Some a -> l !! j = Some b -> R a b.
Proof.
  intros Hs. revert i j. induction Hs as [|x l Hs IH Hx]; intros i j Hij Hi Hj.
  - done.
  - destruct j as [|j]; [lia|]. destruct i as [|i]; simpl in *.
    + injection Hi as ->. rewrite Forall_forall in Hx.
      apply Hx. by eapply list_elem_of_lookup_2.
    + apply (IH i j); (done || lia).
Qed.

(** C3: [listFavorites] takes page 1 and limit 10 for the parameters left
    out; it fails, with BadRequest, exactly when a supplied page or limit is
    not a positive integer; and what it returns on success is a page of the
    user's favorited recipes, cut from the sequence of the user's pairs
    ordered by favorited-at time, latest first. *)
Theorem listFavorites_contract
    (u : Z) (page limit : option supplied) (st : store) :
  listFavorites u None limit st = listFavorites u (Some (Integer 1)) limit st /\
  listFavorites u page None st = listFavorites u page (Some (Integer 10)) st /\
  (listFavorites u page limit st = inl BadRequest <->
   not_positive_integer page \/ not_positive_integer limit) /\
  (forall e, listFavorites u page limit st = inl e -> e = BadRequest) /\
  (forall rs, listFavorites u page limit st = inr rs ->
     exists p l,
       pagination_value 1 page = Some p /\
       pagination_value 10 limit = Some l /\
       rs = snd <$> take l (drop ((p - 1) * l) (favorites_of u st))) /\
  StronglySorted newer_first (favorites_of u st) /\
  favorites_of u st ≡ₚ joined u st /\
  (forall f x, (f, x) ∈ favorites_of u st <->
     f ∈ favorites st /\ userId f = u /\
     find_recipe (recipeId f) st = Some x).
Proof.
  assert (Hperm : favorites_of u st ≡ₚ joined u st)
    by apply merge_sort_Permutation.
  split; [reflexivity|]. split; [reflexivity|]. split; [|split].
  - unfold listFavorites. split.
    + destruct (pagination_value 1 page) eqn:Ep,
        (pagination_value 10 limit) eqn:El; try done; intros _.
      * right. by apply (pagination_value_refused 10).
      * left. by apply (pagination_value_refused 1).
      * left. by apply (pagination_value_refused 1).
    + intros [Hp | Hl].
      * apply (pagination_value_refused 1) in Hp. by rewrite Hp.
      * apply (pagination_value_refused 10) in Hl. rewrite Hl.
        by destruct (pagination_value 1 page).
  - unfold listFavorites. intros e.
    destruct (pagination_value 1 page), (pagination_value 10 limit); congruence.
  - split; [|split; [|split]].
    + unfold listFavorites, page_of. intros rs.
      destruct (pagination_value 1 page) as [p|],
        (pagination_value 10 limit) as [l|]; try done.
      intros [= <-]. by exists p, l.
    + apply StronglySorted_merge_sort; apply _.
    + exact Hperm.
    + intros f x. rewrite Hperm. apply joined_spec.
Qed.

(** The recipe a pair is joined with carries the id of the pair. *)
Lemma find_recipe_id (r : string) (st : store) (x : recipe) :
  find_recipe r st = Some x -> recipe_id x = r.
Proof.
  unfold find_recipe. intros [_ Hx]%find_some.
  by apply bool_decide_eq_true in Hx.
Qed.

Lemma joined_recipe_ids (u : Z) (st : store) :
  recipe_id <$> (snd <$> joined u st)
  = recipeId <$> (fst <$> joined u st).
Proof.
  unfold joined.
  induction (filter (fun f => userId f = u) (favorites st)) as [|f fs IH]; [done|].
  simpl. destruct (find_recipe (recipeId f) st) as [x|] eqn:E; simpl; [|done].
  apply find_recipe_id in E. f_equal; [exact E | exact IH].
Qed.

Lemma joined_fst_sublist (u : Z) (st : store) :
  fst <$> joined u st `sublist_of` filter (fun f => userId f = u) (favorites st).
Proof.
  unfold joined.
  induction (filter (fun f => userId f = u) (favorites st)) as [|f fs IH]; [done|].
  simpl. destruct (find_recipe (recipeId f) st); simpl.
  - by apply sublist_skip.
  - by apply sublist_cons.
Qed.

(** Among the pairs of one user the recipe ids are distinct. *)
Lemma user_recipe_ids_distinct (u : Z) (fs : list favorite) :
  NoDup ((fun f => (userId f, recipeId f)) <$> fs) ->
  NoDup (recipeId <$> filter (fun f => userId f = u) fs).
Proof.
  induction fs as [|f fs IH]; [intros; constructor|].
  rewrite fmap_cons, NoDup_cons. intros [Hf Hfs].
  rewrite filter_cons. destruct (decide (userId f = u)) as [Hu|]; [|by apply IH].
  rewrite fmap_cons, NoDup_cons. split; [|by apply IH].
  intros (g & Hr & [Hgu Hg]%list_elem_of_filter)%list_elem_of_fmap.
  apply Hf, list_elem_of_fmap. exists g. split; [|done]. congruence.
Qed.

(** With unique pairs no recipe occurs twice among a user's favorites. *)
Lemma favorites_of_distinct (u : Z) (st : store) :
  pairs_unique st -> NoDup (snd <$> favorites_of u st).
Proof.
  intros Hu. unfold favorites_of. rewrite merge_sort_Permutation.
  apply (NoDup_fmap_1 recipe_id). rewrite joined_recipe_ids.
  apply (sublist_NoDup _
           (recipeId <$> filter (fun f => userId f = u) (favorites st))).
  - by apply user_recipe_ids_distinct.
  - apply fmap_sublist, joined_fst_sublist.
Qed.

(** C4: with unchanged favorites, in which each pair is stored once, page 1
    with limit 10 has at most 10 recipes, page 2 shares none with it, and the
    two are the first and the second ten of the same ordered sequence. *)
Theorem favorites_pages_do_not_overlap (u : Z) (st : store) :
  pairs_unique st ->
  exists p1 p2,
    listFavorites u (Some (Integer 1)) (Some (Integer 10)) st = inr p1 /\
    listFavorites u (Some (Integer 2)) (Some (Integer 10)) st = inr p2 /\
    length p1 <= 10 /\
    (forall x, x ∈ p1 -> x ∉ p2) /\
    p1 = take 10 (snd <$> favorites_of u st) /\
    p2 = take 10 (drop 10 (snd <$> favorites_of u st)).
Proof.
  intros Hu. eexists _, _. split; [reflexivity|]. split; [reflexivity|].
  unfold page_of. change ((Z.to_nat 1 - 1) * Z.to_nat 10) with 0.
  change ((Z.to_nat 2 - 1) * Z.to_nat 10) with 10. change (Z.to_nat 10) with 10.
  rewrite drop_0, !fmap_take, fmap_drop.
  split; [rewrite length_take; lia|]. split; [|done].
  pose proof (favorites_of_distinct u st Hu) as Hnd.
  assert (Hcut : NoDup (take 10 (snd <$> favorites_of u st)
                        ++ take 10 (drop 10 (snd <$> favorites_of u st)))).
  { rewrite take_take_drop. eapply sublist_NoDup; [exact Hnd | apply sublist_take]. }
  apply NoDup_app in Hcut as (_ & Hdis & _). exact Hdis.
Qed.

(** C5: [listPopularRecipes] returns the stored recipes, and of two returned
    recipes the one with strictly more favorites comes first. *)
Theorem popular_recipes_sorted (st : store) :
  listPopularRecipes st ≡ₚ recipes st /\
  forall i j a b,
    listPopularRecipes st !! i = Some a ->
    listPopularRecipes st !! j = Some b ->
    favorite_count st b < favorite_count st a ->
    i < j.
Proof.
  split; [apply merge_sort_Permutation|].
  intros i j a b Hi Hj Hlt.
  assert (Hs : StronglySorted (more_popular st) (listPopularRecipes st))
    by (apply StronglySorted_merge_sort; apply _).
  destruct (decide (i < j)) as [|Hge]; [done|]. exfalso.
  destruct (decide (i = j)) as [->|Hne].
  - rewrite Hi in Hj. injection Hj as ->. lia.
  - assert (Hji : j < i) by lia.
    pose proof (StronglySorted_lookup_lt _ _ _ _ _ _ Hs Hji Hj Hi) as Hba.
    unfold more_popular in Hba. lia.
Qed.

(** *** Unique pairs are kept, and the pages on a concrete store *)

Lemma is_favorite_false (u : Z) (r : string) (fs : list favorite) :
  existsb (is_pair u r) fs = false ->
  (u, r) ∉ (fun f => (userId f, recipeId f)) <$> fs.
Proof.
  induction fs as [|f fs IH]; simpl; [intros _; apply not_elem_of_nil|].
  intros [Hf Hfs]%orb_false_elim. apply not_elem_of_cons. split; [|by apply IH].
  intros [= -> ->]. unfold is_pair in Hf.
  by rewrite !bool_decide_eq_true_2 in Hf.
Qed.

Lemma addToFavorites_pairs_unique (u : Z) (r : string) (st st' : store) :
  pairs_unique st -> addToFavorites u r st = inr st' -> pairs_unique st'.
Proof.
  unfold pairs_unique, addToFavorites. intros Hu.
  destruct (recipe_exists r st); simpl; [|done].
  destruct (is_favorite u r st) eqn:Hf; [done|]. intros [= <-]. simpl.
  rewrite fmap_app. apply NoDup_app. split; [done|]. split; [|apply NoDup_singleton].
  intros p Hp Hnew%list_elem_of_singleton. simpl in Hnew. subst p.
  by apply is_favorite_false in Hf.
Qed.

Lemma removeFromFavorites_pairs_unique (u : Z) (r : string) (st st' : store) :
  pairs_unique st -> removeFromFavorites u r st = inr st' -> pairs_unique st'.
Proof.
  unfold pairs_unique, removeFromFavorites. intros Hu.
  destruct (recipe_exists r st); simpl; [|done].
  destruct (is_favorite u r st); simpl; [|done]. intros [= <-]. simpl.
  apply (sublist_NoDup _ ((fun f => (userId f, recipeId f)) <$> favorites st));
    [done|].
  apply fmap_sublist, sublist_filter.
Qed.

Example shelf_pages :
  listFavorites 7 None None shelf
  = inr ((fun r => Recipe r r 1) <$> ["m"; "k"; "j"; "i"; "h"; "g"; "f"; "e"; "d"; "c"]) /\
  listFavorites 7 (Some (Integer 2)) None shelf
  = inr ((fun r => Recipe r r 1) <$> ["b"; "a"]) /\
  listFavorites 7 (Some (Integer 0)) None shelf = inl BadRequest /\
  listFavorites 7 None (Some (NotInteger "ten")) shelf = inl BadRequest /\
  listPopularRecipes shelf !! 0 = Some (Recipe "m" "m" 1).
Proof. by vm_compute. Qed.

Lemma favorites_pages_do_not_overlap_shelf :
  pairs_unique shelf /\
  exists p1 p2,
    listFavorites 7 (Some (Integer 1)) (Some (Integer 10)) shelf = inr p1 /\
    listFavorites 7 (Some (Integer 2)) (Some (Integer 10)) shelf = inr p2 /\
    length p1 <= 10 /\
    (forall x, x ∈ p1 -> x ∉ p2) /\
    p1 = take 10 (snd <$> favorites_of 7 shelf) /\
    p2 = take 10 (drop 10 (snd <$> favorites_of 7 shelf)).
Proof.
  assert (Hu : pairs_unique shelf).
  { unfold pairs_unique. apply (bool_decide_unpack _). by vm_compute. }
  split; [exact Hu|].
  exact (favorites_pages_do_not_overlap 7 shelf Hu).
Defined.

End Favorites.

(** ** More on the stack walk

    Facts about [run_stack] and [handle] that hold for every router and
    every behaviour of the handlers. *)
Module ExpressFacts.
Import Express.

Section Walk.
Context {H : Type}.
Variable behav : list (invocation H) -> invocation H -> outcome.

(** The invocations of the first [n] handlers of a stack. *)
Definition invoked (ps : params) (n : nat) (hs : list H) : list (invocation H) :=
  (fun h => Invocation h ps) <$> take n hs.

(** Every invocation the walk added to [tr0] belongs to a route of the
    router that matches the request, and stands right after the invocations
    of the handlers before it in that route, each of which called [next()]. *)
Definition chained (routes : list (route H)) (req : request)
    (tr0 tr : list (invocation H)) : Prop :=
  forall k i,
    tr !! k = Some i -> length tr0 <= k ->
    exists r m,
      r ∈ routes /\
      match_route r req = Some (inv_params i) /\
      r_stack r !! m = Some (inv_handler i) /\
      length tr0 + m <= k /\
      forall m' h',
        m' < m -> r_stack r !! m' = Some h' ->
        tr !! (k - m + m') = Some (Invocation h' (inv_params i)) /\
        behav (take (k - m + m') tr) (Invocation h' (inv_params i)) = Next.

(** [run_stack] invokes a prefix of the stack, in order, and all but the
    last handler invoked called [next()]. *)
Lemma run_stack_shape (ps : params) (hs : list H) (tr : list (invocation H)) :
  exists n,
    n <= length hs /\
    (run_stack behav ps hs tr).1 = tr ++ invoked ps n hs /\
    forall m h,
      m + 1 < n -> hs !! m = Some h ->
      behav (tr ++ invoked ps m hs) (Invocation h ps) = Next.
Proof.
  revert tr. induction hs as [|h hs IH]; intros tr.
  - exists 0. simpl. split; [lia|]. split; [by rewrite app_nil_r|]. intros; lia.
  - simpl. destruct (behav tr (Invocation h ps)) eqn:E.
    2-5: exists 1; simpl; split; [lia|]; split; [done|]; intros; lia.
    destruct (IH (tr ++ [Invocation h ps])) as (n & Hn & Htr & Hnext).
    exists (S n). split; [lia|]. split.
    + rewrite Htr. unfold invoked. simpl. by rewrite <- app_assoc.
    + intros [|m] h' Hm Hh'; simpl in Hh'.
      * injection Hh' as <-. unfold invoked. simpl. by rewrite app_nil_r.
      * unfold invoked. simpl. rewrite cons_middle, app_assoc.
        apply Hnext; [lia | done].
Qed.

Lemma invoked_lookup (ps : params) (n m : nat) (hs : list H) (i : invocation H) :
  invoked ps n hs !! m = Some i ->
  m < n /\ hs !! m = Some (inv_handler i) /\ inv_params i = ps.
Proof.
  unfold invoked. rewrite list_lookup_fmap.
  destruct (take n hs !! m) as [h|] eqn:E; [|done]. simpl. intros [= <-].
  apply lookup_take_Some in E as [E Hm]. done.
Qed.

Lemma invoked_take (ps : params) (n m : nat) (hs : list H) :
  m <= n -> take m (invoked ps n hs) = invoked ps m hs.
Proof.
  intros Hm. unfold invoked. rewrite <- fmap_take, take_take.
  by replace (m `min` n) with m by lia.
Qed.

(** The part of a trace that one run of a route's stack contributed. *)
Lemma segment_chained (routes : list (route H)) (req : request)
    (r : route H) (ps : params) (n : nat)
    (tr0 more : list (invocation H)) (k : nat) (i : invocation H) :
  r ∈ routes ->
  match_route r req = Some ps ->
  (forall m h, m + 1 < n -> r_stack r !! m = Some h ->
               behav (tr0 ++ invoked ps m (r_stack r)) (Invocation h ps) = Next) ->
  ((tr0 ++ invoked ps n (r_stack r)) ++ more) !! k = Some i ->
  length tr0 <= k < length (tr0 ++ invoked ps n (r_stack r)) ->
  exists r0 m,
    r0 ∈ routes /\
    match_route r0 req = Some (inv_params i) /\
    r_stack r0 !! m = Some (inv_handler i) /\
    length tr0 + m <= k /\
    forall m' h',
      m' < m -> r_stack r0 !! m' = Some h' ->
      ((tr0 ++ invoked ps n (r_stack r)) ++ more) !! (k - m + m')
      = Some (Invocation h' (inv_params i)) /\
      behav (take (k - m + m') ((tr0 ++ invoked ps n (r_stack r)) ++ more))
            (Invocation h' (inv_params i)) = Next.
Proof.
  intros Hr Hmatch Hnext Hk [Hlo Hhi].
  rewrite lookup_app_l in Hk by done.
  rewrite lookup_app_r in Hk by done.
  apply invoked_lookup in Hk as (Hm & Hh & Hps).
  exists r, (k - length tr0). rewrite Hps.
  split; [done|]. split; [done|]. split; [done|]. split; [lia|].
  intros m' h' Hm' Hh'.
  replace (k - (k - length tr0) + m') with (length tr0 + m') by lia.
  assert (Hin : length tr0 + m' < length (tr0 ++ invoked ps n (r_stack r))).
  { rewrite length_app in *. lia. }
  split.
  - rewrite lookup_app_l by done. rewrite lookup_app_r by lia.
    replace (length tr0 + m' - length tr0) with m' by lia.
    unfold invoked. rewrite list_lookup_fmap, lookup_take_lt by lia.
    by rewrite Hh'.
  - rewrite take_app_le by lia.
    rewrite take_app_add, invoked_take by lia.
    apply Hnext; [lia | done].
Qed.

Lemma match_route_hit (r : route H) (req : request) (ps : params) :
  match_path (r_path r) (req_path req) = Hit ps ->
  handles_method (r_method r) (req_method req) = true ->
  match_route r req = Some ps.
Proof. intros Hp Hm. unfold match_route. by rewrite Hm, Hp. Qed.

(** The walk only adds to the trace. *)
Lemma walk_extends (err : bool) (routes : list (route H)) (req : request)
    (tr0 : list (invocation H)) :
  exists more, (walk behav err routes req tr0).1 = tr0 ++ more.
Proof.
  revert err tr0. induction routes as [|r rs IH]; intros err tr0; simpl.
  - exists []. by rewrite app_nil_r.
  - destruct (match_path (r_path r) (req_path req)) as [|ps|]; [apply IH| |apply IH].
    destruct err; [apply IH|].
    destruct (handles_method (r_method r) (req_method req)); [|apply IH].
    destruct (run_stack_shape ps (r_stack r) tr0) as (n & _ & Htr & _).
    destruct (run_stack behav ps (r_stack r) tr0) as [tr1 o]. simpl in Htr.
    subst tr1.
    destruct o; simpl; try by eexists.
    all: destruct (IH false (tr0 ++ invoked ps n (r_stack r))) as [more ->];
      exists (invoked ps n (r_stack r) ++ more); by rewrite app_assoc.
Qed.

Lemma handle_extends (routes : list (route H)) (req : request)
    (tr0 : list (invocation H)) :
  exists more, (handle behav routes req tr0).1 = tr0 ++ more.
Proof. apply walk_extends. Qed.

Lemma chained_further (r : route H) (rs : list (route H)) (req : request)
    (tr0 tr : list (invocation H)) :
  chained rs req tr0 tr -> chained (r :: rs) req tr0 tr.
Proof.
  intros Hch k i Hk Hlo. destruct (Hch k i Hk Hlo) as (r' & m & Hr' & Hrest).
  exists r', m. split; [by apply list_elem_of_further | done].
Qed.

(** Whatever the handlers do, a handler runs only in a route that matches
    the request, and only after the handlers before it in that route have
    run, in order, and called [next()]. *)
Lemma walk_chained (err : bool) (routes : list (route H)) (req : request)
    (tr0 : list (invocation H)) :
  chained routes req tr0 (walk behav err routes req tr0).1.
Proof.
  revert err tr0. induction routes as [|r rs IH]; intros err tr0.
  - intros k i Hk Hlo. simpl in Hk. apply lookup_lt_Some in Hk. lia.
  - simpl.
    destruct (match_path (r_path r) (req_path req)) as [|ps|] eqn:Hpath;
      [apply chained_further, IH| |apply chained_further, IH].
    destruct err; [apply chained_further, IH|].
    destruct (handles_method (r_method r) (req_method req)) eqn:Hmeth;
      [|apply chained_further, IH].
    pose proof (match_route_hit r req ps Hpath Hmeth) as Hmatch.
    destruct (run_stack_shape ps (r_stack r) tr0) as (n & _ & Htr & Hnext).
    destruct (run_stack behav ps (r_stack r) tr0) as [tr1 o]. simpl in Htr.
    subst tr1.
    assert (Hstop : chained (r :: rs) req tr0 (tr0 ++ invoked ps n (r_stack r))).
    { intros k' i' Hk Hlo. pose proof (lookup_lt_Some _ _ _ Hk) as Hhi.
      rewrite <- (app_nil_r (tr0 ++ invoked ps n (r_stack r))) in Hk |- *.
      eapply segment_chained; eauto. apply list_elem_of_here. }
    assert (Hgo : chained (r :: rs) req tr0
                    (walk behav false rs req (tr0 ++ invoked ps n (r_stack r))).1).
    { intros k' i' Hk Hlo.
      destruct (decide (k' < length (tr0 ++ invoked ps n (r_stack r)))) as [Hin|Hout].
      - destruct (walk_extends false rs req (tr0 ++ invoked ps n (r_stack r)))
          as [more Hmore].
        rewrite Hmore in Hk |- *.
        eapply segment_chained; eauto. apply list_elem_of_here.
      - assert (Hge : length (tr0 ++ invoked ps n (r_stack r)) <= k') by lia.
        destruct (IH false _ k' i' Hk Hge) as (r' & m & Hr' & Hm & Hh & Hle & Hpre).
        exists r', m. split; [by apply list_elem_of_further|].
        split; [done|]. split; [done|]. split; [|done].
        rewrite length_app in Hle. lia. }
    destruct o; simpl; auto.
Qed.

Lemma handle_chained (routes : list (route H)) (req : request)
    (tr0 : list (invocation H)) :
  chained routes req tr0 (handle behav routes req tr0).1.
Proof. apply walk_chained. Qed.

End Walk.
End ExpressFacts.

(** ** More on the recipe router *)
Module RecipeRouterFacts.
Import Express RecipeRouter ExpressFacts.

(** The handlers the route of a controller runs before it. *)
Definition guards (c : recipeController.t) : list handler :=
  match List.find
          (fun r => bool_decide (last (r_stack r) = Some (controller c)))
          recipeRouter with
  | Some r => take (length (r_stack r) - 1) (r_stack r)
  | None => []
  end.

(** The stack of the route ends in a controller. *)
Definition ends_in_controller (r : route handler) : Prop :=
  exists mids c, r_stack r = mids ++ [controller c].

(** The single segment of the path is one that [decodeURIComponent]
    refuses. *)
Definition malformed_path (req : request) : bool :=
  match req_path req with
  | [seg] => negb (bool_decide (seg = "")) &&
             bool_decide (decodeURIComponent seg = None)
  | _ => false
  end.

(** The string has no percent sign. *)
Fixpoint percent_free (s : string) : bool :=
  match s with
  | EmptyString => true
  | String c rest => negb (bool_decide (c = "%"%char)) && percent_free rest
  end.

(** No layer of the stack fails to decode the request. *)
Definition decodes (routes : list (route handler)) (req : request) : Prop :=
  Forall (fun r => match_path (r_path r) (req_path req) <> Malformed) routes.

(** Requests no route of the router is written for, or whose segment does
    not decode. *)
Definition unrouted (req : request) : Prop :=
  2 <= length (req_path req) \/
  req_method req = PUT \/
  req_method req = PATCH \/
  (req_method req = POST /\
   exists seg, req_path req = [seg] /\ lower seg <> "favorites") \/
  (req_method req = DELETE /\ req_path req = []) \/
  malformed_path req = true.

Example guards_of_createRecipe :
  guards recipeController.createRecipe
  = [auth; uploadRecipeImage_single "thumb"; validateBody Schemas.createRecipeSchema].
Proof. reflexivity. Qed.

Example guards_of_getPopularRecipes :
  guards recipeController.getPopularRecipes = [].
Proof. reflexivity. Qed.

(** In the router a controller stands at the end of one route only. *)
Lemma controller_position (r : route handler) (m : nat) (c : recipeController.t) :
  r ∈ recipeRouter -> r_stack r !! m = Some (controller c) ->
  take m (r_stack r) = guards c.
Proof.
  unfold recipeRouter. intros Hr Hm.
  repeat (apply elem_of_cons in Hr as [-> | Hr]);
    [.. | by apply elem_of_nil in Hr];
    repeat (destruct m as [|m]; simpl in Hm; try discriminate Hm);
    by injection Hm as <-.
Qed.

Lemma last_ends_in_controller (r : route handler) (c : recipeController.t) :
  last (r_stack r) = Some (controller c) -> ends_in_controller r.
Proof. intros [mids E]%last_Some. by exists mids, c. Qed.

Lemma recipeRouter_ends_in_controllers : Forall ends_in_controller recipeRouter.
Proof.
  unfold recipeRouter.
  repeat (apply Forall_cons; split;
          [eapply last_ends_in_controller; reflexivity|]).
  constructor.
Qed.

(** X1: whatever the handlers do and whatever the request, a controller of
    the recipe router runs only right after the handlers registered before
    it on its route ([auth], the upload, the validation), each of which ran
    on the same parameters and called [next()]. *)
Theorem controller_runs_after_its_guards
    (behav : list (invocation handler) -> invocation handler -> outcome)
    (req : request) (k : nat) (c : recipeController.t) (ps : params) :
  (handle behav recipeRouter req []).1 !! k = Some (Invocation (controller c) ps) ->
  length (guards c) <= k /\
  forall m h,
    guards c !! m = Some h ->
    (handle behav recipeRouter req []).1 !! (k - length (guards c) + m)
    = Some (Invocation h ps) /\
    behav (take (k - length (guards c) + m) (handle behav recipeRouter req []).1)
          (Invocation h ps) = Next.
Proof.
  intros Hk.
  destruct (handle_chained behav recipeRouter req [] k _ Hk) as
    (r & m & Hr & _ & Hm & Hle & Hpre); [simpl; lia|].
  simpl in Hm, Hle, Hpre.
  pose proof (controller_position r m c Hr Hm) as Hg.
  assert (Hlen : length (guards c) = m).
  { rewrite <- Hg, length_take. apply lookup_lt_Some in Hm. lia. }
  rewrite Hlen. split; [lia|].
  intros m' h Hh. rewrite <- Hg in Hh.
  apply lookup_take_Some in Hh as [Hh Hm']. by apply Hpre.
Qed.

Lemma controller_runs_after_its_guards_own :
  (handle answering_controllers recipeRouter (Request GET ["own"]) []).1 !! 1
  = Some (Invocation (controller recipeController.getUserRecipes) []) /\
  length (guards recipeController.getUserRecipes) <= 1 /\
  forall m h,
    guards recipeController.getUserRecipes !! m = Some h ->
    (handle answering_controllers recipeRouter (Request GET ["own"]) []).1
      !! (1 - length (guards recipeController.getUserRecipes) + m)
    = Some (Invocation h []) /\
    answering_controllers
      (take (1 - length (guards recipeController.getUserRecipes) + m)
            (handle answering_controllers recipeRouter (Request GET ["own"]) []).1)
      (Invocation h []) = Next.
Proof.
  split; [reflexivity|].
  apply (controller_runs_after_its_guards answering_controllers
           (Request GET ["own"]) 1 recipeController.getUserRecipes []).
  reflexivity.
Defined.

(** *** Decoding and the literal paths *)

Lemma decode_percent_free (s : string) :
  percent_free s = true -> decodeURIComponent s = Some s.
Proof.
  unfold decodeURIComponent. induction s as [|c s IH]; [done|].
  simpl. intros [Hc Hs]%andb_true_iff.
  destruct (decide (c = "%"%char)) as [->|_]; [done|].
  by rewrite (IH Hs).
Qed.

Lemma lower_ascii_percent (c : ascii) :
  bool_decide (lower_ascii c = "%"%char) = bool_decide (c = "%"%char).
Proof. destruct c as [[] [] [] [] [] [] [] []]; reflexivity. Qed.

Lemma lower_percent_free (s : string) :
  percent_free (lower s) = percent_free s.
Proof.
  induction s as [|c s IH]; [done|]. simpl.
  by rewrite lower_ascii_percent, IH.
Qed.

(** A segment that reads as a literal path in some letter case decodes to
    itself. *)
Lemma literal_decodes (s seg : string) :
  percent_free s = true -> lower s = lower seg ->
  decodeURIComponent seg = Some seg.
Proof.
  intros Hs E. apply decode_percent_free.
  by rewrite <- lower_percent_free, <- E, lower_percent_free.
Qed.

(** *** One layer *)

Lemma match_path_literal (s seg : string) :
  match_path [Lit s] [seg]
  = if decide (lower s = lower seg) then Hit [] else Miss.
Proof. reflexivity. Qed.

Lemma match_path_parameter (x seg : string) :
  match_path [Param x] [seg]
  = if decide (seg = "") then Miss
    else match decodeURIComponent seg with
         | Some v => Hit [(x, v)]
         | None => Malformed
         end.
Proof.
  simpl. destruct (decide (seg = "")); [done|].
  by destruct (decodeURIComponent seg).
Qed.

Lemma match_path_longer (p : segment) (s1 s2 : string) (rest : list string) :
  match_path [p] (s1 :: s2 :: rest) = Miss.
Proof.
  destruct p as [s|x]; simpl.
  - by destruct (decide (lower s = lower s1)).
  - by destruct (decide (s1 = "")).
Qed.

(** Write out the method and the path of the routes of the router. *)
Ltac show_route :=
  cbn [r_path r_method req_path req_method
       post_root post_favorites delete_favorites get_favorites delete_recipeId
       get_root get_popular get_own get_recipeId].

(** Only a single segment that does not decode makes a layer of the router
    fail. *)
Lemma recipeRouter_decodes (req : request) :
  malformed_path req = false -> decodes recipeRouter req.
Proof.
  unfold malformed_path, decodes, recipeRouter. intros Hm.
  destruct (req_path req) as [|seg [|seg2 rest]] eqn:Hpath.
  - repeat (apply Forall_cons; split; [by simpl|]). constructor.
  - assert (Hpar : forall x, match_path [Param x] [seg] <> Malformed).
    { intros x. rewrite match_path_parameter.
      destruct (decide (seg = "")) as [|Hne]; [done|].
      destruct (decodeURIComponent seg) eqn:Hd; [done|].
      rewrite bool_decide_eq_false_2, bool_decide_eq_true_2 in Hm by done. done. }
    assert (Hlit : forall s, match_path [Lit s] [seg] <> Malformed).
    { intros s. rewrite match_path_literal. by destruct (decide (lower s = lower seg)). }
    repeat (apply Forall_cons; split;
            [show_route; first [apply Hpar | apply Hlit | done]|]).
    constructor.
  - repeat (apply Forall_cons; split;
            [show_route; first [by rewrite match_path_longer | done]|]).
    constructor.
Qed.

(** *** The walk *)

Section Walk.
Variable behav : list (invocation handler) -> invocation handler -> outcome.

(** Once a layer has failed to decode, nothing runs and the walk fails. *)
Lemma walk_pending (rs : list (route handler)) (req : request)
    (tr : list (invocation handler)) :
  walk behav true rs req tr = (tr, Failed).
Proof.
  induction rs as [|r rs IH]; [done|]. simpl.
  by destruct (match_path (r_path r) (req_path req)).
Qed.

Lemma walk_miss (err : bool) (r : route handler) (rs : list (route handler))
    (req : request) (tr : list (invocation handler)) :
  match_path (r_path r) (req_path req) = Miss ->
  walk behav err (r :: rs) req tr = walk behav err rs req tr.
Proof. intros E. simpl. by rewrite E. Qed.

Lemma walk_malformed (err : bool) (r : route handler) (rs : list (route handler))
    (req : request) (tr : list (invocation handler)) :
  match_path (r_path r) (req_path req) = Malformed ->
  walk behav err (r :: rs) req tr = (tr, Failed).
Proof. intros E. simpl. rewrite E. apply walk_pending. Qed.

(** A route of another method is passed by. *)
Lemma walk_other_method (err : bool) (r : route handler)
    (rs : list (route handler)) (req : request) (tr : list (invocation handler)) :
  match_path (r_path r) (req_path req) <> Malformed ->
  handles_method (r_method r) (req_method req) = false ->
  walk behav err (r :: rs) req tr = walk behav err rs req tr.
Proof.
  intros Hp Hm. simpl. rewrite Hm.
  destruct (match_path (r_path r) (req_path req)); try done. by destruct err.
Qed.

(** The route that takes the request runs its stack. *)
Lemma walk_serves (r : route handler) (rs : list (route handler))
    (req : request) (tr : list (invocation handler)) (ps : params) :
  match_path (r_path r) (req_path req) = Hit ps ->
  handles_method (r_method r) (req_method req) = true ->
  walk behav false (r :: rs) req tr
  = conclude (run_stack behav ps (r_stack r) tr) (walk behav false rs req).
Proof. intros Hp Hm. simpl. by rewrite Hp, Hm. Qed.

Lemma match_route_none (r : route handler) (req : request) :
  match_path (r_path r) (req_path req) = Miss \/
  handles_method (r_method r) (req_method req) = false ->
  match_route r req = None.
Proof.
  unfold match_route. intros [-> | ->]; [|done].
  by destruct (handles_method (r_method r) (req_method req)).
Qed.

(** Without a matching route no handler runs. *)
Lemma walk_no_match (rs : list (route handler)) (req : request)
    (tr : list (invocation handler)) :
  decodes rs req -> first_match rs req = None ->
  walk behav false rs req tr = (tr, FellThrough).
Proof.
  induction rs as [|r rs IH]; [done|].
  intros [Hr Hrs]%Forall_cons. simpl. unfold match_route.
  destruct (match_path (r_path r) (req_path req)) as [|ps|]; [| |done].
  - destruct (handles_method _ _); by apply IH.
  - destruct (handles_method _ _); [done | by apply IH].
Qed.

(** When the handlers conclude, the first matching route is the only one
    that runs. *)
Lemma walk_first_match (rs : list (route handler)) (req : request)
    (tr : list (invocation handler)) (r : route handler) :
  handlers_conclude behav ->
  Forall ends_in_controller rs ->
  decodes rs req ->
  first_match rs req = Some r ->
  r ∈ rs /\
  exists ps, match_route r req = Some ps /\
             (walk behav false rs req tr).1 = (run_stack behav ps (r_stack r) tr).1.
Proof.
  intros Hc. induction rs as [|r0 rs IH]; [done|].
  intros [(mids & c & Hr0) Hends]%Forall_cons [Hd Hds]%Forall_cons. simpl.
  destruct (match_route r0 req) as [ps|] eqn:E.
  - intros [= <-]. split; [apply list_elem_of_here|]. exists ps. split; [done|].
    unfold match_route in E.
    destruct (handles_method (r_method r0) (req_method req)); [|done].
    destruct (match_path (r_path r0) (req_path req)) as [|ps'|]; try done.
    injection E as ->.
    destruct (run_stack_concludes behav ps mids c tr Hc) as [HN HR].
    rewrite <- Hr0 in HN, HR.
    by destruct (run_stack behav ps (r_stack r0) tr) as [tr' []].
  - intros Hfm. destruct (IH Hends Hds Hfm) as (Hin & ps & Hps & Htr).
    split; [by apply list_elem_of_further|]. exists ps. split; [done|].
    rewrite <- Htr. unfold match_route in E.
    destruct (match_path (r_path r0) (req_path req)) as [|ps'|]; [done| |done].
    by destruct (handles_method (r_method r0) (req_method req)).
Qed.

(** A segment that does not decode: the first four routes pass on it, the
    fifth, [/:recipeId], fails to decode it, and the walk fails. *)
Lemma malformed_fails (req : request) (tr : list (invocation handler)) :
  malformed_path req = true ->
  handle behav recipeRouter req tr = (tr, Failed).
Proof.
  unfold malformed_path. destruct req as [m path]. simpl.
  destruct path as [|seg [|seg2 rest]]; try done.
  intros [Hne%negb_true_iff%bool_decide_eq_false Hd%bool_decide_eq_true]%andb_true_iff.
  assert (Hlit : match_path [Lit "favorites"] [seg] = Miss).
  { rewrite match_path_literal.
    destruct (decide (lower "favorites" = lower seg)) as [E|]; [|done].
    apply literal_decodes in E; [congruence | reflexivity]. }
  assert (Hpar : match_path [Param "recipeId"] [seg] = Malformed).
  { rewrite match_path_parameter, Hd. by destruct (decide (seg = "")). }
  unfold handle, recipeRouter.
  rewrite walk_miss by reflexivity. rewrite !walk_miss by exact Hlit.
  apply walk_malformed. exact Hpar.
Qed.

End Walk.

(** X2: when the handlers conclude, a request is served by the first route
    that matches it and by no other: the handlers that run are the first [n]
    of that route's stack, in order, for some [n] of at least one. When no
    route matches, none runs and the request falls through; and when its
    single segment cannot be decoded, none runs and the walk fails, whatever
    the method. *)
Theorem only_first_match_runs
    (behav : list (invocation handler) -> invocation handler -> outcome)
    (req : request) :
  handlers_conclude behav ->
  if malformed_path req then handle behav recipeRouter req [] = ([], Failed)
  else
    match first_match recipeRouter req with
    | None => handle behav recipeRouter req [] = ([], FellThrough)
    | Some r =>
        exists ps n,
          match_route r req = Some ps /\
          1 <= n <= length (r_stack r) /\
          (handle behav recipeRouter req []).1 = invoked ps n (r_stack r)
    end.
Proof.
  intros Hc. destruct (malformed_path req) eqn:Hmal; [by apply malformed_fails|].
  pose proof (recipeRouter_decodes req Hmal) as Hdec.
  destruct (first_match recipeRouter req) as [r|] eqn:Hfm;
    [|by apply walk_no_match].
  destruct (walk_first_match behav recipeRouter req [] r Hc
              recipeRouter_ends_in_controllers Hdec Hfm) as (Hin & ps & Hps & Htr).
  destruct (run_stack_shape behav ps (r_stack r) []) as (n & Hn & Hshape & _).
  exists ps, n. split; [done|]. unfold handle. rewrite Htr, Hshape.
  split; [|done]. split; [|done].
  destruct n as [|n]; [|lia]. exfalso.
  pose proof recipeRouter_ends_in_controllers as Hall.
  rewrite Forall_forall in Hall. destruct (Hall r Hin) as (mids & c & Hst).
  rewrite Hst in Hshape. destruct mids; simpl in Hshape.
  - by destruct (behav [] (Invocation (controller c) ps)).
  - destruct (behav [] (Invocation h ps)); try done.
    destruct (run_stack_shape behav ps (mids ++ [controller c]) [Invocation h ps])
      as (n' & _ & E & _).
    rewrite E in Hshape. done.
Qed.

Lemma answering_controllers_conclude : handlers_conclude answering_controllers.
Proof.
  intros tr i. unfold answering_controllers.
  split; [by destruct (inv_handler i)|].
  intros c ->. discriminate.
Qed.

Lemma only_first_match_runs_own :
  handlers_conclude answering_controllers /\
  if malformed_path (Request GET ["own"])
  then handle answering_controllers recipeRouter (Request GET ["own"]) []
       = ([], Failed)
  else
    match first_match recipeRouter (Request GET ["own"]) with
    | None => handle answering_controllers recipeRouter (Request GET ["own"]) []
              = ([], FellThrough)
    | Some r =>
        exists ps n,
          match_route r (Request GET ["own"]) = Some ps /\
          1 <= n <= length (r_stack r) /\
          (handle answering_controllers recipeRouter (Request GET ["own"]) []).1
          = invoked ps n (r_stack r)
    end.
Proof.
  split; [exact answering_controllers_conclude|].
  exact (only_first_match_runs answering_controllers (Request GET ["own"])
           answering_controllers_conclude).
Defined.

(** A segment that is not a sequence of escapes: nothing runs. *)
Example percent_alone_fails :
  handle answering_controllers recipeRouter (Request GET ["%"]) [] = ([], Failed) /\
  handle answering_controllers recipeRouter (Request PUT ["%"]) [] = ([], Failed).
Proof. by vm_compute. Qed.

(** What a route with a single parameter takes from a request. *)
Lemma match_param_route (m0 : method) (x : string) (st : list handler)
    (req : request) (ps : params) :
  match_route (Route m0 [Param x] st) req = Some ps ->
  handles_method m0 (req_method req) = true /\
  exists seg v,
    req_path req = [seg] /\ seg <> "" /\
    decodeURIComponent seg = Some v /\ ps = [(x, v)].
Proof.
  unfold match_route. cbn [r_method r_path].
  destruct (handles_method m0 (req_method req)); [|done].
  destruct (req_path req) as [|seg [|seg2 rest]]; [done| |].
  - rewrite match_path_parameter.
    destruct (decide (seg = "")); [done|].
    destruct (decodeURIComponent seg) as [v|] eqn:Hd; [|done].
    intros [= <-]. split; [done|]. by exists seg, v.
  - by rewrite match_path_longer.
Qed.

(** What a request for one segment says when a literal route passes on it. *)
Lemma match_literal_route_none (m0 : method) (s : string) (st : list handler)
    (req : request) (seg : string) :
  match_route (Route m0 [Lit s] st) req = None ->
  handles_method m0 (req_method req) = true ->
  req_path req = [seg] ->
  lower s <> lower seg.
Proof.
  unfold match_route. cbn [r_method r_path]. intros Hm Hh Hp.
  rewrite Hh, Hp, match_path_literal in Hm.
  by destruct (decide (lower s = lower seg)).
Qed.

(** When the handlers conclude, every handler that runs is one of the first
    matching route, on the parameters of that match. *)
Lemma served_by_first_match
    (behav : list (invocation handler) -> invocation handler -> outcome)
    (req : request) (i : invocation handler) :
  handlers_conclude behav ->
  i ∈ (handle behav recipeRouter req []).1 ->
  exists r, first_match recipeRouter req = Some r /\
            match_route r req = Some (inv_params i) /\
            inv_handler i ∈ r_stack r.
Proof.
  intros Hc Hi.
  destruct (malformed_path req) eqn:Hmal.
  { rewrite (malformed_fails behav req [] Hmal) in Hi. by apply elem_of_nil in Hi. }
  pose proof (recipeRouter_decodes req Hmal) as Hdec.
  destruct (first_match recipeRouter req) as [r|] eqn:Hfm.
  - destruct (walk_first_match behav recipeRouter req [] r Hc
                recipeRouter_ends_in_controllers Hdec Hfm) as (_ & ps & Hps & Htr).
    destruct (run_stack_shape behav ps (r_stack r) []) as (n & _ & Hshape & _).
    unfold handle in Hi. rewrite Htr, Hshape in Hi. simpl in Hi.
    apply list_elem_of_lookup in Hi as [k Hk].
    apply invoked_lookup in Hk as (_ & Hh%list_elem_of_lookup_2 & Hpar).
    exists r. by rewrite Hpar.
  - unfold handle in Hi.
    rewrite (walk_no_match behav _ _ _ Hdec Hfm) in Hi. by apply elem_of_nil in Hi.
Qed.

(** [H] says a handler is in the stack of a route that does not list it. *)
Ltac not_in_stack H :=
  exfalso; simpl in H;
  repeat (apply elem_of_cons in H as [H | H]; [discriminate H|]);
  by apply elem_of_nil in H.

(** Walk the router one route on: either the route matches, and the handler
    of [H] must be in its stack, or the next route is tried. *)
Ltac try_route H :=
  match goal with
  | |- (match match_route ?r ?req with Some _ => _ | None => _ end = _) -> _ =>
      let E := fresh "E" in
      destruct (match_route r req) eqn:E;
      [intros [= <-] H; try not_in_stack H|]
  end.

Lemma first_match_getRecipeById (req : request) (r : route handler) :
  first_match recipeRouter req = Some r ->
  controller recipeController.getRecipeById ∈ r_stack r ->
  r = get_recipeId /\
  match_route get_favorites req = None /\
  match_route get_popular req = None /\
  match_route get_own req = None.
Proof.
  unfold recipeRouter. cbn [first_match].
  do 9 (try try_route Hh); first [done | discriminate].
Qed.

Lemma first_match_deleteRecipe (req : request) (r : route handler) :
  first_match recipeRouter req = Some r ->
  controller recipeController.deleteRecipe ∈ r_stack r ->
  r = delete_recipeId /\ match_route delete_favorites req = None.
Proof.
  unfold recipeRouter. cbn [first_match].
  do 9 (try try_route Hh); first [done | discriminate].
Qed.

(** X3: when the handlers conclude, [getRecipeById] and [deleteRecipe] get
    exactly one parameter, [recipeId], which is the single, non-empty segment
    of the path after [decodeURIComponent]; the segment as it is written is
    never [favorites], [popular] or [own] for [getRecipeById], and never
    [favorites] for [deleteRecipe], in any letter case. *)
Theorem recipeId_is_the_decoded_segment
    (behav : list (invocation handler) -> invocation handler -> outcome)
    (req : request) (i : invocation handler) :
  handlers_conclude behav ->
  i ∈ (handle behav recipeRouter req []).1 ->
  (inv_handler i = controller recipeController.getRecipeById ->
   exists seg v,
     req_path req = [seg] /\ seg <> "" /\
     decodeURIComponent seg = Some v /\ inv_params i = [("recipeId", v)] /\
     lower seg <> "favorites" /\ lower seg <> "popular" /\ lower seg <> "own") /\
  (inv_handler i = controller recipeController.deleteRecipe ->
   exists seg v,
     req_path req = [seg] /\ seg <> "" /\
     decodeURIComponent seg = Some v /\ inv_params i = [("recipeId", v)] /\
     lower seg <> "favorites").
Proof.
  intros Hc Hi.
  destruct (served_by_first_match behav req i Hc Hi) as (r & Hfm & Hps & Hh).
  split; intros Hhandler; rewrite Hhandler in Hh.
  - destruct (first_match_getRecipeById req r Hfm Hh) as (-> & Hf & Hp & Ho).
    apply match_param_route in Hps as (Hget & seg & v & Hpath & Hne & Hd & Hpar).
    exists seg, v. repeat split; try done.
    + intros E. by apply (match_literal_route_none _ _ _ _ seg Hf).
    + intros E. by apply (match_literal_route_none _ _ _ _ seg Hp).
    + intros E. by apply (match_literal_route_none _ _ _ _ seg Ho).
  - destruct (first_match_deleteRecipe req r Hfm Hh) as (-> & Hf).
    apply match_param_route in Hps as (Hdel & seg & v & Hpath & Hne & Hd & Hpar).
    exists seg, v. repeat split; try done.
    intros E. by apply (match_literal_route_none _ _ _ _ seg Hf).
Qed.

Lemma recipeId_is_the_decoded_segment_escaped :
  handlers_conclude answering_controllers /\
  Invocation (controller recipeController.getRecipeById) [("recipeId", "favorites")]
  ∈ (handle answering_controllers recipeRouter (Request GET ["%66avorites"]) []).1 /\
  exists seg v,
    [seg] = ["%66avorites"] /\ seg <> "" /\
    decodeURIComponent seg = Some v /\
    [("recipeId", "favorites")] = [("recipeId", v)] /\
    lower seg <> "favorites" /\ lower seg <> "popular" /\ lower seg <> "own".
Proof.
  assert (Hi : Invocation (controller recipeController.getRecipeById)
                 [("recipeId", "favorites")]
               ∈ (handle answering_controllers recipeRouter
                         (Request GET ["%66avorites"]) []).1).
  { apply list_elem_of_lookup. by exists 0. }
  split; [exact answering_controllers_conclude|]. split; [exact Hi|].
  destruct (recipeId_is_the_decoded_segment answering_controllers
              (Request GET ["%66avorites"]) _ answering_controllers_conclude Hi)
    as [Hget _].
  destruct (Hget eq_refl) as (seg & v & Hpath & Hrest).
  exists seg, v. split; [by symmetry | exact Hrest].
Defined.

(** A literal path written with an escape is an id to the router. *)
Example escaped_favorites_is_an_id :
  handle answering_controllers recipeRouter (Request GET ["%66avorites"]) []
  = ([Invocation (controller recipeController.getRecipeById)
        [("recipeId", "favorites")]],
     Responded).
Proof. by vm_compute. Qed.

(** DELETE knows one literal path only: [/own] and [/popular] are recipe
    ids to it. *)
Example delete_own_is_an_id :
  handle answering_controllers recipeRouter (Request DELETE ["own"]) []
  = ([Invocation auth [("recipeId", "own")];
      Invocation (controller recipeController.deleteRecipe) [("recipeId", "own")]],
     Responded).
Proof. by vm_compute. Qed.

(** Letter case does not tell a literal path from another. *)
Example upper_case_favorites :
  first_match recipeRouter (Request GET ["FAVORITES"]) = Some get_favorites.
Proof. by vm_compute. Qed.

Lemma match_literal_route_miss (m0 : method) (s : string) (st : list handler)
    (m : method) (seg : string) :
  lower s <> lower seg ->
  match_route (Route m0 [Lit s] st) (Request m [seg]) = None.
Proof.
  intros Hne. unfold match_route. cbn [r_method r_path req_method req_path].
  destruct (handles_method m0 m); [|done].
  rewrite match_path_literal. by destruct (decide (lower s = lower seg)).
Qed.

(** X4: no handler of the router runs, whatever the handlers would do, for
    a path of two or more segments, for PUT and PATCH, for a POST to a
    single segment other than [favorites], for a DELETE of the root, and for
    a single segment that does not decode. The walk then fails when that
    single segment does not decode, and otherwise the request leaves the
    router untouched. *)
Theorem unrouted_requests_run_nothing
    (behav : list (invocation handler) -> invocation handler -> outcome)
    (req : request) (tr : list (invocation handler)) :
  unrouted req ->
  handle behav recipeRouter req tr
  = (tr, if malformed_path req then Failed else FellThrough).
Proof.
  intros Hun. destruct (malformed_path req) eqn:Hmal; [by apply malformed_fails|].
  apply walk_no_match; [by apply recipeRouter_decodes|].
  destruct req as [m path]. unfold unrouted in Hun. simpl in Hun.
  destruct Hun as
    [Hlen | [-> | [-> | [[-> (seg & -> & Hseg)] | [[-> ->] | Hbad]]]]];
    [| | | | |congruence].
  - destruct path as [|s1 [|s2 rest]]; simpl in Hlen; [lia..|].
    unfold recipeRouter. cbn [first_match].
    repeat (rewrite match_route_none
              by (left; first [reflexivity | apply match_path_longer])).
    reflexivity.
  - unfold recipeRouter. cbn [first_match].
    repeat (rewrite match_route_none by (by right)). reflexivity.
  - unfold recipeRouter. cbn [first_match].
    repeat (rewrite match_route_none by (by right)). reflexivity.
  - unfold recipeRouter. cbn [first_match].
    assert (Hmiss : match_route post_favorites (Request POST [seg]) = None).
    { apply match_literal_route_miss. intros E. apply Hseg. by rewrite <- E. }
    rewrite Hmiss.
    repeat (rewrite match_route_none by (first [by right | by left])).
    reflexivity.
  - reflexivity.
Qed.

Lemma unrouted_requests_run_nothing_put :
  unrouted (Request PUT ["favorites"]) /\
  handle answering_controllers recipeRouter (Request PUT ["favorites"]) []
  = ([], if malformed_path (Request PUT ["favorites"]) then Failed else FellThrough).
Proof.
  assert (Hun : unrouted (Request PUT ["favorites"])).
  { right. by left. }
  split; [exact Hun|].
  exact (unrouted_requests_run_nothing answering_controllers
           (Request PUT ["favorites"]) [] Hun).
Defined.

(** *** The literal paths *)

Lemma conducted_outcomes (w : conduct)
    (tr : list (invocation handler)) (i : invocation handler) :
  conducted w tr i = Next \/ conducted w tr i = Fail \/ conducted w tr i = Respond.
Proof.
  unfold conducted. destruct (inv_handler i) as [| |schema|schema|c].
  - destruct (signed_in w); auto.
  - destruct (upload_accepted w); auto.
  - destruct (body_valid w schema); auto.
  - destruct (query_valid w schema); auto.
  - destruct (operation_succeeds w c (inv_params i)); auto.
Qed.

Lemma conducted_concludes (w : conduct) : handlers_conclude (conducted w).
Proof.
  intros tr i. split.
  - by destruct (conducted_outcomes w tr i) as [-> | [-> | ->]].
  - intros c Hc. unfold conducted. rewrite Hc.
    by destruct (operation_succeeds w c (inv_params i)).
Qed.

(** The first handler of a stack is the first to run. *)
Lemma run_stack_head
    (behav : list (invocation handler) -> invocation handler -> outcome)
    (ps : params) (h : handler) (rest : list handler) :
  head (run_stack behav ps (h :: rest) []).1 = Some (Invocation h ps).
Proof.
  destruct (run_stack_shape behav ps (h :: rest) []) as (n & _ & Htr & _).
  rewrite Htr. destruct n as [|n]; [|done]. exfalso.
  simpl in Htr. destruct (behav [] (Invocation h ps)); try done.
  destruct (run_stack_shape behav ps rest [Invocation h ps]) as (n' & _ & E & _).
  rewrite E in Htr. done.
Qed.

Lemma conclude_head
    (behav : list (invocation handler) -> invocation handler -> outcome)
    (ps : params) (h : handler) (rest : list handler)
    (rs : list (route handler)) (req : request) :
  head (conclude (run_stack behav ps (h :: rest) [])
                 (handle behav rs req)).1
  = Some (Invocation h ps).
Proof.
  pose proof (run_stack_head behav ps h rest) as Hhead.
  destruct (run_stack behav ps (h :: rest) []) as [tr' o]. simpl in Hhead.
  destruct o; simpl; try done.
  all: destruct (handle_extends behav rs req tr') as [more ->];
    by destruct tr'.
Qed.

(** With the handlers as the design document has them, a route that ends in
    a controller keeps the request. *)
Lemma conclude_conducted (w : conduct) (ps : params) (mids : list handler)
    (c : recipeController.t)
    (go_on : list (invocation handler) -> list (invocation handler) * final) :
  (conclude (run_stack (conducted w) ps (mids ++ [controller c]) []) go_on).1
  = (run_stack (conducted w) ps (mids ++ [controller c]) []).1 /\
  (conclude (run_stack (conducted w) ps (mids ++ [controller c]) []) go_on).2
  <> FellThrough.
Proof.
  destruct (run_stack_concludes (conducted w) ps mids c [] (conducted_concludes w))
    as [HN HR].
  assert (Hrouter : (run_stack (conducted w) ps (mids ++ [controller c]) []).2
                    <> NextRouter).
  { clear. generalize (@nil (invocation handler)).
    induction mids as [|m mids IH]; intros tr; simpl.
    - by destruct (conducted_outcomes w tr (Invocation (controller c) ps))
        as [-> | [-> | ->]].
    - destruct (conducted_outcomes w tr (Invocation m ps)) as [-> | [-> | ->]];
        [apply IH | done | done]. }
  destruct (run_stack (conducted w) ps (mids ++ [controller c]) []) as [tr' o].
  simpl in *. by destruct o.
Qed.

(** For a literal path the walk passes by the routes registered before the
    route written for it, runs the stack of that route, and goes on with
    the routes registered after it only when that stack hands the request
    on. *)
Lemma literal_dispatch
    (behav : list (invocation handler) -> invocation handler -> outcome)
    (seg : string) (r : route handler) :
  dedicated seg = Some r ->
  handle behav recipeRouter (Request GET [seg]) []
  = conclude (run_stack behav [] (r_stack r) [])
             (handle behav (after_route r recipeRouter) (Request GET [seg])).
Proof.
  unfold dedicated. repeat case_decide; intros [= <-]; subst seg.
  - assert (Ha : after_route get_favorites recipeRouter
                 = [delete_recipeId; get_root; get_popular; get_own; get_recipeId])
      by (by vm_compute).
    rewrite Ha. unfold handle, recipeRouter.
    repeat first [ rewrite walk_miss by (by vm_compute)
                 | rewrite walk_other_method by (by vm_compute) ].
    by rewrite (walk_serves behav get_favorites _ _ _ []) by (by vm_compute).
  - assert (Ha : after_route get_popular recipeRouter = [get_own; get_recipeId])
      by (by vm_compute).
    rewrite Ha. unfold handle, recipeRouter.
    repeat first [ rewrite walk_miss by (by vm_compute)
                 | rewrite walk_other_method by (by vm_compute) ].
    by rewrite (walk_serves behav get_popular _ _ _ []) by (by vm_compute).
  - assert (Ha : after_route get_own recipeRouter = [get_recipeId])
      by (by vm_compute).
    rewrite Ha. unfold handle, recipeRouter.
    repeat first [ rewrite walk_miss by (by vm_compute)
                 | rewrite walk_other_method by (by vm_compute) ].
    by rewrite (walk_serves behav get_own _ _ _ []) by (by vm_compute).
Qed.

Lemma dedicated_routes (seg : string) :
  seg ∈ ["favorites"; "popular"; "own"] ->
  exists r h mids c,
    dedicated seg = Some r /\ r_method r = GET /\ r_path r = [Lit seg] /\
    r_stack r = mids ++ [controller c] /\ head (r_stack r) = Some h /\
    c <> recipeController.getRecipeById /\
    (controller recipeController.getRecipeById ∉ mids) /\
    get_recipeId ∈ after_route r recipeRouter.
Proof.
  rewrite !elem_of_cons, elem_of_nil. intros [-> | [-> | [-> | []]]].
  - exists get_favorites, auth, [auth; validateQuery Schemas.paginationSchema],
      recipeController.getFavorites.
    assert (Ha : after_route get_favorites recipeRouter
                 = [delete_recipeId; get_root; get_popular; get_own; get_recipeId])
      by (by vm_compute).
    rewrite Ha. split_and!; try done.
    + rewrite !not_elem_of_cons. split_and!; try done. apply not_elem_of_nil.
    + rewrite !elem_of_cons. tauto.
  - exists get_popular, (controller recipeController.getPopularRecipes), [],
      recipeController.getPopularRecipes.
    assert (Ha : after_route get_popular recipeRouter = [get_own; get_recipeId])
      by (by vm_compute).
    rewrite Ha. split_and!; try done.
    + apply not_elem_of_nil.
    + rewrite !elem_of_cons. tauto.
  - exists get_own, auth, [auth], recipeController.getUserRecipes.
    assert (Ha : after_route get_own recipeRouter = [get_recipeId])
      by (by vm_compute).
    rewrite Ha. split_and!; try done.
    + rewrite !not_elem_of_cons. split_and!; try done. apply not_elem_of_nil.
    + rewrite !elem_of_cons. tauto.
Qed.

(** C9: [/favorites], [/popular] and [/own] are registered before
    [/:recipeId]. For a GET of one of these literal paths, whatever the
    handlers do, the walk runs the stack of the route written for that path,
    beginning with its first handler and without parameters, and reaches
    the later routes, [/:recipeId] among them, only if that stack hands
    the request on. With the handlers as the design document has them the
    stack keeps the request: nothing but handlers of that route run, the
    request does not leave the router unanswered, and [getRecipeById] is not
    invoked. *)
Theorem literal_paths_run_their_routes
    (behav : list (invocation handler) -> invocation handler -> outcome)
    (w : conduct) (seg : string) :
  seg ∈ ["favorites"; "popular"; "own"] ->
  exists r h,
    dedicated seg = Some r /\
    r_method r = GET /\ r_path r = [Lit seg] /\ head (r_stack r) = Some h /\
    get_recipeId ∈ after_route r recipeRouter /\
    handle behav recipeRouter (Request GET [seg]) []
    = conclude (run_stack behav [] (r_stack r) [])
               (handle behav (after_route r recipeRouter) (Request GET [seg])) /\
    head (handle behav recipeRouter (Request GET [seg]) []).1
    = Some (Invocation h []) /\
    (handle (conducted w) recipeRouter (Request GET [seg]) []).1
    = (run_stack (conducted w) [] (r_stack r) []).1 /\
    (handle (conducted w) recipeRouter (Request GET [seg]) []).2 <> FellThrough /\
    (forall i,
        i ∈ (handle (conducted w) recipeRouter (Request GET [seg]) []).1 ->
        inv_handler i ∈ r_stack r /\ inv_params i = [] /\
        inv_handler i <> controller recipeController.getRecipeById).
Proof.
  intros Hseg.
  destruct (dedicated_routes seg Hseg)
    as (r & h & mids & c & Hd & Hm & Hp & Hst & Hh & Hc & Hmids & Hlater).
  exists r, h. do 5 (split; [done|]).
  pose proof (literal_dispatch behav seg r Hd) as Hwalk.
  pose proof (literal_dispatch (conducted w) seg r Hd) as Hspec.
  split; [exact Hwalk|]. split.
  { rewrite Hwalk. destruct (r_stack r) as [|h0 rest] eqn:E; [done|].
    injection Hh as ->. apply conclude_head. }
  rewrite Hspec, Hst.
  destruct (conclude_conducted w [] mids c
              (handle (conducted w) (after_route r recipeRouter) (Request GET [seg])))
    as [Htr Hfin].
  split; [exact Htr|]. split; [exact Hfin|].
  intros i Hi. rewrite Htr in Hi.
  destruct (run_stack_shape (conducted w) [] (mids ++ [controller c]) [])
    as (n & _ & Hshape & _).
  rewrite Hshape in Hi. simpl in Hi.
  apply list_elem_of_lookup in Hi as [k Hk].
  apply invoked_lookup in Hk as (_ & Hin%list_elem_of_lookup_2 & Hps).
  split; [done|]. split; [done|].
  intros E. rewrite E in Hin.
  apply elem_of_app in Hin as [Hin | Hin%list_elem_of_singleton]; [done|].
  congruence.
Qed.

Lemma literal_paths_run_their_routes_own :
  "own" ∈ ["favorites"; "popular"; "own"] /\
  exists r h,
    dedicated "own" = Some r /\
    r_method r = GET /\ r_path r = [Lit "own"] /\ head (r_stack r) = Some h /\
    get_recipeId ∈ after_route r recipeRouter /\
    handle answering_controllers recipeRouter (Request GET ["own"]) []
    = conclude (run_stack answering_controllers [] (r_stack r) [])
               (handle answering_controllers (after_route r recipeRouter)
                       (Request GET ["own"])) /\
    head (handle answering_controllers recipeRouter (Request GET ["own"]) []).1
    = Some (Invocation h []) /\
    (handle (conducted all_well) recipeRouter (Request GET ["own"]) []).1
    = (run_stack (conducted all_well) [] (r_stack r) []).1 /\
    (handle (conducted all_well) recipeRouter (Request GET ["own"]) []).2
    <> FellThrough /\
    (forall i,
        i ∈ (handle (conducted all_well) recipeRouter (Request GET ["own"]) []).1 ->
        inv_handler i ∈ r_stack r /\ inv_params i = [] /\
        inv_handler i <> controller recipeController.getRecipeById).
Proof.
  assert (Hseg : "own" ∈ ["favorites"; "popular"; "own"]).
  { rewrite !elem_of_cons. tauto. }
  split; [exact Hseg|].
  exact (literal_paths_run_their_routes answering_controllers all_well "own" Hseg).
Defined.

(** The three literal paths with everything in order, and [/own] without
    being signed in. *)
Example literal_paths_served :
  handle (conducted all_well) recipeRouter (Request GET ["favorites"]) []
  = ([Invocation auth [];
      Invocation (validateQuery Schemas.paginationSchema) [];
      Invocation (controller recipeController.getFavorites) []], Responded) /\
  handle (conducted all_well) recipeRouter (Request GET ["popular"]) []
  = ([Invocation (controller recipeController.getPopularRecipes) []], Responded) /\
  handle (conducted all_well) recipeRouter (Request GET ["own"]) []
  = ([Invocation auth [];
      Invocation (controller recipeController.getUserRecipes) []], Responded) /\
  handle (conducted (Conduct false true (fun _ => true) (fun _ => true)
                             (fun _ _ => true)))
         recipeRouter (Request GET ["own"]) []
  = ([Invocation auth []], Failed).
Proof. by vm_compute. Qed.

(** Were a controller to hand the request on, [/:recipeId] would be next. *)
Example handing_on_reaches_the_parameter :
  handle (fun _ _ => Next) recipeRouter (Request GET ["own"]) []
  = ([Invocation auth [];
      Invocation (controller recipeController.getUserRecipes) [];
      Invocation (controller recipeController.getRecipeById) [("recipeId", "own")]],
     FellThrough).
Proof. by vm_compute. Qed.

End RecipeRouterFacts.

(** ** More on the category creation schema *)
Module CategorySchemaFacts.
Import Json Joi CategorySchema.

(** The keys the schema declares. *)
Definition declared : list string := createCategorySchema.*1.

(** The value of [name] is a string that is not empty. *)
Definition name_valid (p : gmap string value) : Prop :=
  exists s, p !! "name" = Some (JString s) /\ s <> "".

(** A payload that is wrong in every declared key and has one more. *)
Definition all_wrong : gmap string value :=
  <["description" := JNumber 3]>
    (<["thumb" := JString "not a link"]> (<["color" := JString "red"]> ∅)).

Section Facts.
Variable is_uri : string -> bool.

Lemma check_string_some (sc : string_schema) (v : option value) (c : code) :
  check_string is_uri sc v = Some c ->
  (c = any_required /\ v = None /\ s_required sc = true) \/
  (c = string_base /\ exists w, v = Some w /\ forall s, w <> JString s) \/
  (c = string_empty /\ v = Some (JString "")) \/
  (c = string_uri /\ s_uri sc = true /\
   exists s, v = Some (JString s) /\ s <> "" /\ is_uri s = false).
Proof.
  unfold check_string. destruct v as [w|].
  - destruct w as [| | |s| |];
      try (intros [= <-]; right; left; split; [done|]; eexists; split; [done|]; done).
    destruct (decide (s = "")) as [->|Hne].
    + intros [= <-]. right. right. left. done.
    + destruct (s_uri sc) eqn:Eu; simpl; [|done].
      destruct (is_uri s) eqn:Es; simpl; [done|].
      intros [= <-]. right. right. right. split; [done|]. split; [done|].
      by exists s.
  - destruct (s_required sc) eqn:Er; [|done]. intros [= <-]. by left.
Qed.

Lemma key_error_inv (sch : object_schema) (p : gmap string value) (e : error) :
  e ∈ key_errors is_uri sch p ->
  exists ks c,
    ks ∈ sch /\ check_string is_uri ks.2 (p !! ks.1) = Some c /\
    e = Error ks.1 c (message_for ks.2 c).
Proof.
  unfold key_errors. rewrite list_elem_of_omap. intros (ks & Hks & He).
  unfold check_key in He.
  destruct (check_string is_uri ks.2 (p !! ks.1)) as [c|] eqn:E; [|done].
  injection He as <-. by exists ks, c.
Qed.

Lemma unknown_error_inv (sch : object_schema) (p : gmap string value) (e : error) :
  e ∈ unknown_errors sch p ->
  err_code e = object_unknown /\ err_message e = None /\
  (err_key e ∉ sch.*1) /\ is_Some (p !! err_key e).
Proof.
  unfold unknown_errors, unknown_keys.
  intros (k & -> & Hk%elem_of_elements)%list_elem_of_fmap. simpl.
  apply elem_of_difference in Hk as [Hdom Hnot].
  rewrite elem_of_list_to_set in Hnot. by apply elem_of_dom in Hdom.
Qed.

(** The errors of the declared keys come in the order of the schema, one
    for a key at most. *)
Lemma key_errors_in_order (sch : object_schema) (p : gmap string value) :
  (err_key <$> key_errors is_uri sch p) `sublist_of` sch.*1.
Proof.
  unfold key_errors. induction sch as [|ks sch IH]; [done|].
  simpl. unfold check_key at 1.
  destruct (check_string is_uri ks.2 (p !! ks.1)); simpl.
  - by apply sublist_skip.
  - by apply sublist_cons.
Qed.

End Facts.

(** The errors of [name] come first. *)
Lemma validate_name_first (is_uri : string -> bool) (p : gmap string value) :
  validate is_uri createCategorySchema p
  = match check_string is_uri
            (StringSchema true false
               [(any_required, "Category name is required");
                (string_empty, "Category name cannot be empty")])
            (p !! "name") with
    | Some c =>
        [Error "name" c
           (message_for
              (StringSchema true false
                 [(any_required, "Category name is required");
                  (string_empty, "Category name cannot be empty")]) c)]
    | None => []
    end
    ++ (key_errors is_uri (tail createCategorySchema) p
        ++ unknown_errors createCategorySchema p).
Proof.
  unfold validate, key_errors, createCategorySchema at 1. cbn [omap list_omap].
  unfold check_key at 1. cbn [fst snd].
  by destruct (check_string is_uri _ (p !! "name")).
Qed.

(** X5: an invalid [name] is what validation reports first, whatever else
    is wrong: "Category name is required" when the key is missing, "Category
    name cannot be empty" for the empty string, the type error without an
    overriding message for a value that is not a string; and the first
    error is about [name] only when [name] is invalid. *)
Theorem invalid_name_reported_first
    (is_uri : string -> bool) (p : gmap string value) :
  (p !! "name" = None ->
   head (validate is_uri createCategorySchema p)
   = Some (Error "name" any_required (Some "Category name is required"))) /\
  (p !! "name" = Some (JString "") ->
   head (validate is_uri createCategorySchema p)
   = Some (Error "name" string_empty (Some "Category name cannot be empty"))) /\
  (forall v, p !! "name" = Some v -> (forall s, v <> JString s) ->
   head (validate is_uri createCategorySchema p)
   = Some (Error "name" string_base None)) /\
  (forall e, head (validate is_uri createCategorySchema p) = Some e ->
             err_key e = "name" -> ~ name_valid p).
Proof.
  rewrite validate_name_first.
  split; [by intros ->|]. split; [by intros ->|]. split.
  - intros v -> Hv. destruct v; try done. by destruct (Hv s).
  - intros e He Hkey (s & Hs & Hne).
    assert (Hok : check_string is_uri
                    (StringSchema true false
                       [(any_required, "Category name is required");
                        (string_empty, "Category name cannot be empty")])
                    (Some (JString s)) = None).
    { unfold check_string. by destruct (decide (s = "")). }
    rewrite Hs, Hok, app_nil_l in He.
    apply head_Some_elem_of in He.
    apply elem_of_app in He as [He | He].
    + apply key_error_inv in He as (ks & c & Hks & _ & ->). simpl in Hkey.
      unfold createCategorySchema in Hks. simpl in Hks.
      rewrite !elem_of_cons, elem_of_nil in Hks.
      destruct Hks as [-> | [-> | []]]; discriminate Hkey.
    + apply unknown_error_inv in He as (_ & _ & Hnot & _).
      apply Hnot. rewrite Hkey. vm_compute. by left.
Qed.

(** X6: what the errors of the schema can be. Only [name] is ever reported
    as required, and only when it is missing; only [thumb] is ever reported
    as not a URI, and only for a non-empty string that fails the test; an
    undeclared key is reported only when the payload has it; and an error
    carries Joi's own message exactly when it is a type error or an
    undeclared key, the schema's message otherwise. *)
Theorem category_errors_range
    (is_uri : string -> bool) (p : gmap string value) (e : error) :
  e ∈ validate is_uri createCategorySchema p ->
  (err_code e = any_required -> err_key e = "name" /\ p !! "name" = None) /\
  (err_code e = string_uri ->
   err_key e = "thumb" /\
   exists s, p !! "thumb" = Some (JString s) /\ s <> "" /\ is_uri s = false) /\
  (err_code e = object_unknown ->
   (err_key e ∉ declared) /\ is_Some (p !! err_key e)) /\
  (err_message e = None <->
   err_code e = string_base \/ err_code e = object_unknown).
Proof.
  unfold validate. intros [He | He]%elem_of_app.
  - apply key_error_inv in He as (ks & c & Hks & Hc & ->).
    unfold createCategorySchema in Hks.
    rewrite !elem_of_cons, elem_of_nil in Hks.
    apply check_string_some in Hc.
    destruct Hks as [-> | [-> | [-> | []]]]; simpl in *;
      destruct Hc as [(-> & Hv & Hreq) | [(-> & Hv) | [(-> & Hv) | (-> & Huri & Hv)]]];
      try discriminate Hreq; try discriminate Huri;
      (split; [try done; by intros _|]);
      (split; [try done; by intros _|]);
      (split; [done|]);
      vm_compute; split; intros; try done; try tauto;
      match goal with H : _ \/ _ |- _ => destruct H; discriminate end.
  - apply unknown_error_inv in He as (Hc & Hm & Hk & Hp).
    rewrite Hc, Hm. repeat split; try done. by right.
Qed.

Lemma category_errors_range_thumb :
  Error "thumb" string_uri (Some "Thumb must be a valid URL")
  ∈ validate (fun _ => false) createCategorySchema all_wrong /\
  (string_uri = any_required -> "thumb" = "name" /\ all_wrong !! "name" = None) /\
  (string_uri = string_uri ->
   "thumb" = "thumb" /\
   exists s, all_wrong !! "thumb" = Some (JString s) /\ s <> "" /\
             (fun _ : string => false) s = false) /\
  (string_uri = object_unknown ->
   ("thumb" ∉ declared) /\ is_Some (all_wrong !! "thumb")) /\
  (Some "Thumb must be a valid URL" = None <->
   string_uri = string_base \/ string_uri = object_unknown).
Proof.
  assert (He : Error "thumb" string_uri (Some "Thumb must be a valid URL")
               ∈ validate (fun _ => false) createCategorySchema all_wrong).
  { apply list_elem_of_lookup. by exists 2. }
  split; [exact He|].
  exact (category_errors_range (fun _ => false) all_wrong _ He).
Defined.

Example all_wrong_errors :
  validate (fun _ => false) createCategorySchema all_wrong
  = [Error "name" any_required (Some "Category name is required");
     Error "description" string_base None;
     Error "thumb" string_uri (Some "Thumb must be a valid URL");
     Error "color" object_unknown None].
Proof. by vm_compute. Qed.

(** X7: a payload with a key the schema does not declare is rejected,
    whatever the key holds and whatever the rest of the payload is. *)
Theorem undeclared_key_always_rejected
    (is_uri : string -> bool) (p : gmap string value) (k : string) (v : value) :
  k ∉ declared ->
  accepts is_uri createCategorySchema (<[k := v]> p) = false.
Proof.
  intros Hk. destruct (accepts is_uri createCategorySchema (<[k:=v]> p)) eqn:E;
    [|done].
  apply accepts_iff in E as [_ Hkeys]. exfalso. apply Hk, Hkeys.
  by rewrite lookup_insert_eq.
Qed.

Lemma undeclared_key_always_rejected_id :
  ("id" ∉ declared) /\
  accepts (fun _ => true) createCategorySchema
          (<["id" := JNumber 7]> (<["name" := JString "Soup"]> ∅)) = false.
Proof.
  assert (Hk : "id" ∉ declared).
  { unfold declared. simpl. rewrite !not_elem_of_cons. repeat split; try done.
    apply not_elem_of_nil. }
  split; [exact Hk|].
  exact (undeclared_key_always_rejected (fun _ => true)
           (<["name" := JString "Soup"]> ∅) "id" (JNumber 7) Hk).
Defined.

(** X8: the two optional keys can be dropped from an accepted payload and
    it stays accepted; without [name] it is rejected. *)
Theorem optional_keys_can_be_dropped
    (is_uri : string -> bool) (p : gmap string value) :
  accepts is_uri createCategorySchema p = true ->
  accepts is_uri createCategorySchema (delete "description" p) = true /\
  accepts is_uri createCategorySchema (delete "thumb" p) = true /\
  accepts is_uri createCategorySchema (delete "name" p) = false.
Proof.
  intros ([(n & Hn & Hnv) [Hd Ht]] & Hkeys)%accepts_iff.
  repeat split.
  - apply accepts_iff. split; [split; [|split]|].
    + exists n. by rewrite lookup_delete_ne.
    + intros v. by rewrite lookup_delete_eq.
    + intros v. rewrite lookup_delete_ne by done. apply Ht.
    + intros k [v Hv]. apply Hkeys. exists v.
      by apply lookup_delete_Some in Hv as [_ Hv].
  - apply accepts_iff. split; [split; [|split]|].
    + exists n. by rewrite lookup_delete_ne.
    + intros v. rewrite lookup_delete_ne by done. apply Hd.
    + intros v. by rewrite lookup_delete_eq.
    + intros k [v Hv]. apply Hkeys. exists v.
      by apply lookup_delete_Some in Hv as [_ Hv].
  - destruct (accepts is_uri createCategorySchema (delete "name" p)) eqn:E; [|done].
    apply accepts_iff in E as [[(v & Hv & _) _] _].
    by rewrite lookup_delete_eq in Hv.
Qed.

Definition full_category : gmap string value :=
  <["name" := JString "Soup"]>
    (<["description" := JString "Hot"]>
       (<["thumb" := JString "https://foodies.example/soup.png"]> ∅)).

Lemma optional_keys_can_be_dropped_full :
  accepts (fun _ => true) createCategorySchema full_category = true /\
  accepts (fun _ => true) createCategorySchema (delete "description" full_category) = true /\
  accepts (fun _ => true) createCategorySchema (delete "thumb" full_category) = true /\
  accepts (fun _ => true) createCategorySchema (delete "name" full_category) = false.
Proof.
  split; [by vm_compute|].
  apply (optional_keys_can_be_dropped (fun _ => true) full_category).
  by vm_compute.
Defined.

(** X9: validation reports a key once at most: first the declared keys
    that fail, in the order [name], [description], [thumb], then the keys
    the schema does not declare. *)
Theorem each_key_reported_once
    (is_uri : string -> bool) (p : gmap string value) :
  (err_key <$> key_errors is_uri createCategorySchema p)
    `sublist_of` ["name"; "description"; "thumb"] /\
  Forall (fun e => err_code e = object_unknown /\ (err_key e ∉ declared))
         (unknown_errors createCategorySchema p) /\
  validate is_uri createCategorySchema p
  = key_errors is_uri createCategorySchema p
    ++ unknown_errors createCategorySchema p /\
  NoDup (err_key <$> validate is_uri createCategorySchema p).
Proof.
  pose proof (key_errors_in_order is_uri createCategorySchema p) as Hord.
  split; [exact Hord|]. split; [|split; [reflexivity|]].
  - apply Forall_forall. intros e He.
    by apply unknown_error_inv in He as (Hc & _ & Hk & _).
  - unfold validate. rewrite fmap_app. apply NoDup_app. repeat split.
    + eapply sublist_NoDup; [|exact Hord].
      apply (bool_decide_unpack _). by vm_compute.
    + intros k Hk (e & -> & He)%list_elem_of_fmap.
      apply unknown_error_inv in He as (_ & _ & Hnot & _).
      apply Hnot. eapply elem_of_sublist; [exact Hk | exact Hord].
    + unfold unknown_errors. rewrite <- list_fmap_compose.
      apply NoDup_fmap_2; [by intros k1 k2 | apply NoDup_elements].
Qed.

End CategorySchemaFacts.

(** ** More on the user model *)
Module UserModelFacts.
Import UserModel.

(** The table after a list of operations, in order. *)
Definition run (emailRegexp : string -> bool) (ops : list operation) (t : table)
  : table :=
  foldl (fun t op => step emailRegexp op t) t ops.

(** The password column of a row is not NULL. *)
Definition password_set (u : user) : Prop := is_Some (password u).

(** What validation finds in the values given to [User.create]: the columns
    that are missing, in the order of the model, then the email that does
    not match. *)
Definition faults (emailRegexp : string -> bool) (v : values)
  : list (string * violation) :=
  match v_email v with None => [("email", notNull)] | Some _ => [] end ++
  match v_password v with None => [("password", notNull)] | Some _ => [] end ++
  match v_email v with
  | Some e => if emailRegexp e then [] else [("email", is_pattern)]
  | None => []
  end.

Section Facts.
Variable emailRegexp : string -> bool.

Lemma next_id_step (op : operation) (t : table) :
  (next_id t <= next_id (step emailRegexp op t))%Z.
Proof.
  unfold step. destruct (exec emailRegexp op t) as [f|t'] eqn:E.
  { destruct f; [lia | lia |]. destruct op; simpl; lia. }
  destruct op; simpl in E.
  - unfold create in E.
    destruct (validate _ _ _); [|done].
    destruct (existsb _ _); [done|].
    destruct (unique _ && email_taken _ _); [done|].
    injection E as <-. simpl. lia.
  - unfold update in E. destruct (validate_changes _ _); [|done].
    destruct (existsb _ _); [done|].
    destruct (negb _); [by injection E as <-|].
    destruct (unique _ && _); [done|]. injection E as <-. simpl. lia.
  - injection E as <-. simpl. lia.
Qed.

Lemma next_id_run (ops : list operation) (t : table) :
  (next_id t <= next_id (run emailRegexp ops t))%Z.
Proof.
  revert t. induction ops as [|op ops IH]; intros t; simpl; [lia|].
  etransitivity; [apply (next_id_step op)|apply IH].
Qed.

Lemma create_success_row (v : values) (t t' : table) :
  create emailRegexp v t = inr t' ->
  rows t' = rows t ++ [build (next_id t) v] /\
  next_id t' = (next_id t + 1)%Z.
Proof.
  unfold create.
  destruct (validate _ _ _); [|done].
  destruct (existsb _ _); [done|].
  destruct (unique _ && email_taken _ _); [done|]. by intros [= <-].
Qed.

Lemma validate_faults (v : values) :
  validate emailRegexp (Some (v_email v)) (Some (v_password v))
  = faults emailRegexp v.
Proof.
  rewrite validate_items. unfold faults.
  destruct (v_email v) as [e|], (v_password v) as [pw|]; simpl; try done.
Qed.

Lemma create_invalid (v : values) (t : table) (items : list (string * violation)) :
  create emailRegexp v t = inl (SequelizeValidationError items) <->
  items = faults emailRegexp v /\ items <> [].
Proof.
  unfold create. rewrite validate_faults.
  destruct (faults emailRegexp v) as [|i rest] eqn:Hf.
  - destruct (existsb _ _); [by split; [|intros [-> ?]]|].
    destruct (unique _ && email_taken _ _); by split; [|intros [-> ?]].
  - split; [by intros [= <-] | by intros [-> _]].
Qed.

Lemma faults_spec (v : values) :
  (("email", notNull) ∈ faults emailRegexp v <-> v_email v = None) /\
  (("password", notNull) ∈ faults emailRegexp v <-> v_password v = None) /\
  (("email", is_pattern) ∈ faults emailRegexp v <->
   exists e, v_email v = Some e /\ emailRegexp e = false) /\
  (forall column what, (column, what) ∈ faults emailRegexp v ->
     (column, what) ∈ [("email", notNull); ("password", notNull);
                       ("email", is_pattern)]).
Proof.
  unfold faults.
  destruct (v_email v) as [e|], (v_password v) as [pw|];
    try destruct (emailRegexp e) eqn:Ee; simpl.
  all: split_and!; try (intros column what); rewrite ?elem_of_cons, ?elem_of_nil.
  all: try (split; intros H).
  all: try done; try tauto.
  all: try (destruct H as (e' & [= <-] & He'); congruence).
  all: try (destruct H as (e' & [=] & _)).
  all: try (by exists e).
  all: try (destruct H as [[=] | H]).
  all: try (destruct H as [[=] | H]).
  all: try done.
  all: try (by left).
  all: try (right; by left).
Qed.

End Facts.

(** X10: the validation of [User.create]. Whatever the table holds, the call
    fails with a validation error exactly when validation finds a fault in
    the values, and the error lists the faults as found: a missing email,
    a missing password, then an email that does not match the pattern. A
    fault is found exactly when the email is missing or does not match or the
    password is missing. With values that are too long, or an email that is
    taken, the error is still the validation error if there is a fault. *)
Theorem create_reports_faults
    (emailRegexp : string -> bool) (v : values) (t : table) :
  (forall items,
      create emailRegexp v t = inl (SequelizeValidationError items) <->
      items = faults emailRegexp v /\ items <> []) /\
  (faults emailRegexp v <> [] <->
   v_email v = None \/
   (exists e, v_email v = Some e /\ emailRegexp e = false) \/
   v_password v = None) /\
  (("email", notNull) ∈ faults emailRegexp v <-> v_email v = None) /\
  (("password", notNull) ∈ faults emailRegexp v <-> v_password v = None) /\
  (("email", is_pattern) ∈ faults emailRegexp v <->
   exists e, v_email v = Some e /\ emailRegexp e = false) /\
  (faults emailRegexp v = [] ->
   create emailRegexp v t = inl SequelizeDatabaseError \/
   create emailRegexp v t = inl (SequelizeUniqueConstraintError "email") \/
   create emailRegexp v t
   = inr (Table (rows t ++ [build (next_id t) v]) (next_id t + 1))).
Proof.
  split; [intros items; apply create_invalid|].
  destruct (faults_spec emailRegexp v) as (H1 & H2 & H3 & Hall).
  split; [|split; [done|split; [done|split; [done|]]]].
  - rewrite <- H1, <- H2, <- H3. split.
    + destruct (faults emailRegexp v) as [|[column what] rest] eqn:Hf; [done|].
      intros _. specialize (Hall column what (list_elem_of_here _ _)).
      rewrite !elem_of_cons, elem_of_nil in Hall.
      destruct Hall as [[= -> ->] | [[= -> ->] | [[= -> ->] | []]]].
      * left. apply list_elem_of_here.
      * right; right. apply list_elem_of_here.
      * right; left. apply list_elem_of_here.
    + intros [H | [H | H]] E; rewrite E in H; by apply elem_of_nil in H.
  - intros Hf. unfold create. rewrite validate_faults, Hf.
    destruct (existsb _ _); [by left|].
    destruct (unique _ && email_taken _ _); [right; by left | right; by right].
Qed.

Example invalid_values_reported :
  create has_at_sign (Values None (Some "ann") None None None None None None) empty
  = inl (SequelizeValidationError [("password", notNull); ("email", is_pattern)]) /\
  create has_at_sign (Values None None None None None None None None) empty
  = inl (SequelizeValidationError [("email", notNull); ("password", notNull)]).
Proof. by vm_compute. Qed.

(** An address with [n] characters before the at sign. *)
Fixpoint long_address (n : nat) : string :=
  match n with
  | O => "@food.ie"
  | S n' => String "a"%char (long_address n')
  end.

(** An email of 255 characters is stored; one of 256 is refused by the
    database, and neither a row nor an id is spent on it. *)
Example long_email_refused :
  String.length (long_address 247) = 255%nat /\
  _id <$> rows (step has_at_sign (register (long_address 247)) empty) = [1%Z] /\
  exec has_at_sign (register (long_address 248)) empty = inl SequelizeDatabaseError /\
  step has_at_sign (register (long_address 248)) empty = empty /\
  exec has_at_sign (rename 1 (Some (long_address 248)))
       (step has_at_sign (register "ann@food.ie") empty)
  = inl SequelizeDatabaseError.
Proof. by vm_compute. Qed.

(** An insert the database refuses for its email takes an id. *)
Example refused_insert_takes_an_id :
  _id <$> rows (run has_at_sign
                    [register "ann@food.ie"; register "ann@food.ie";
                     register "bob@food.ie"] empty)
  = [1; 3]%Z.
Proof. by vm_compute. Qed.

(** X11: no operation on the model leaves a stored user without a password:
    if every row has one, so has every row after a create, an update or a
    destroy, whether it succeeds or fails. *)
Theorem passwords_never_null
    (emailRegexp : string -> bool) (op : operation) (t : table) :
  Forall password_set (rows t) ->
  Forall password_set (rows (step emailRegexp op t)).
Proof.
  intros Ht. unfold step.
  destruct (exec emailRegexp op t) as [f|t'] eqn:E.
  { destruct f; [done | done |]. by destruct op. }
  destruct op as [v|id c|id]; simpl in E.
  - unfold create in E.
    destruct (validate emailRegexp (Some (v_email v)) (Some (v_password v)))
      eqn:Hv; [|done].
    apply validate_passes in Hv as [_ Hpw]. specialize (Hpw _ eq_refl).
    destruct (existsb _ _); [done|].
    destruct (unique _ && email_taken _ _); [done|]. injection E as <-. simpl.
    apply Forall_app. split; [done|]. by apply Forall_singleton.
  - unfold update in E.
    destruct (validate_changes emailRegexp c) eqn:Hv; [|done].
    apply validate_passes in Hv as [_ Hpw].
    destruct (existsb _ _); [done|].
    destruct (negb _); [by injection E as <-|].
    destruct (unique _ && _); [done|]. injection E as <-. simpl.
    rewrite Forall_fmap. eapply Forall_impl; [exact Ht|].
    intros u Hu. unfold password_set, write_row. simpl.
    destruct (decide (_id u = id)); [|done]. simpl.
    destruct (c_password c) as [pw|]; simpl in *; [|done].
    by apply Hpw.
  - injection E as <-. simpl. by apply UserModel.Forall_filter_keep.
Qed.

Lemma passwords_never_null_rename :
  Forall password_set
         (rows (step has_at_sign (register "ann@food.ie") empty)) /\
  Forall password_set
         (rows (step has_at_sign
                     (Update 1 (Changes None None (Some None) None None None None None))
                     (step has_at_sign (register "ann@food.ie") empty))).
Proof.
  assert (Ht : Forall password_set
                 (rows (step has_at_sign (register "ann@food.ie") empty))).
  { apply Forall_singleton. by eexists. }
  split; [exact Ht|].
  exact (passwords_never_null has_at_sign _ _ Ht).
Defined.

Example null_password_rejected :
  exec has_at_sign
       (Update 1 (Changes None None (Some None) None None None None None))
       (step has_at_sign (register "ann@food.ie") empty)
  = inl (SequelizeValidationError [("password", notNull)]).
Proof. by vm_compute. Qed.

(** X12: primary keys are not reused. A user created after another, with
    any operations in between, also the destruction of the first, gets a
    strictly greater id. *)
Theorem ids_never_reused
    (emailRegexp : string -> bool) (v1 v2 : values) (ops : list operation)
    (t t1 t3 : table) :
  create emailRegexp v1 t = inr t1 ->
  create emailRegexp v2 (run emailRegexp ops t1) = inr t3 ->
  exists u1 u3,
    last (rows t1) = Some u1 /\ last (rows t3) = Some u3 /\
    (_id u1 < _id u3)%Z.
Proof.
  intros H1 H3.
  pose proof (create_success_row emailRegexp v1 t t1 H1) as [Hr1 Hn1].
  pose proof (create_success_row emailRegexp v2 _ t3 H3) as [Hr3 Hn3].
  exists (build (next_id t) v1), (build (next_id (run emailRegexp ops t1)) v2).
  rewrite Hr1, Hr3, !last_snoc. split; [done|]. split; [done|]. simpl.
  pose proof (next_id_run emailRegexp ops t1). lia.
Qed.

Lemma ids_never_reused_after_destroy :
  create has_at_sign
         (Values (Some "Ann") (Some "ann@food.ie") (Some "hash") None None None None None)
         empty
  = inr (step has_at_sign (register "ann@food.ie") empty) /\
  create has_at_sign
         (Values (Some "Bob") (Some "bob@food.ie") (Some "hash") None None None None None)
         (run has_at_sign [Destroy 1]
              (step has_at_sign (register "ann@food.ie") empty))
  = inr (Table [User 2 (Some "Bob") (Some "bob@food.ie") (Some "hash")
                     None None None (Some false) None] 3) /\
  exists u1 u3,
    last (rows (step has_at_sign (register "ann@food.ie") empty)) = Some u1 /\
    last (rows (Table [User 2 (Some "Bob") (Some "bob@food.ie") (Some "hash")
                            None None None (Some false) None] 3)) = Some u3 /\
    (_id u1 < _id u3)%Z.
Proof.
  assert (H1 : create has_at_sign
                 (Values (Some "Ann") (Some "ann@food.ie") (Some "hash")
                         None None None None None) empty
               = inr (step has_at_sign (register "ann@food.ie") empty))
    by reflexivity.
  assert (H3 : create has_at_sign
                 (Values (Some "Bob") (Some "bob@food.ie") (Some "hash")
                         None None None None None)
                 (run has_at_sign [Destroy 1]
                      (step has_at_sign (register "ann@food.ie") empty))
               = inr (Table [User 2 (Some "Bob") (Some "bob@food.ie") (Some "hash")
                                  None None None (Some false) None] 3))
    by reflexivity.
  split; [exact H1|]. split; [exact H3|].
  exact (ids_never_reused has_at_sign _ _ [Destroy 1] _ _ _ H1 H3).
Defined.

End UserModelFacts.

(** ** Followers and following

    The two [User.belongsToMany(User, {...})] associations of the user
    model, and what Sequelize reads from and writes to the join table they
    name. *)
Module Followers.

(** The options of a [belongsToMany]: [foreignKey] is the column of the join
    table that holds the id of the user the association is read from,
    [otherKey] the column of the users it yields. *)
Record belongsToMany := BelongsToMany {
  as_name : string;
  through : string;
  foreignKey : string;
  otherKey : string
}.

Definition followers : belongsToMany :=
  BelongsToMany "followers" "user_followers" "followingId" "followerId".

Definition following : belongsToMany :=
  BelongsToMany "following" "user_followers" "followerId" "followingId".

(** The join tables of the database by name; a row gives its columns by
    name. *)
Definition rows_of (a : belongsToMany) (db : gmap string (list (gmap string Z)))
  : list (gmap string Z) :=
  default [] (db !! through a).

(** [user.getFollowers()], [user.getFollowing()]: the users whose id is in
    [otherKey] of a row whose [foreignKey] is the user. The query asks for
    no order, so the ids are given as a set. *)
Definition get (a : belongsToMany) (u : Z) (db : gmap string (list (gmap string Z)))
  : gset Z :=
  list_to_set
    (omap (fun row => if decide (row !! foreignKey a = Some u)
                      then row !! otherKey a else None)
          (rows_of a db)).

Inductive failure := SequelizeForeignKeyConstraintError.

(** Both columns of the join table refer to [_id] of the table of users. *)
Definition references (t : UserModel.table) (id : Z) : bool :=
  bool_decide (id ∈ UserModel._id <$> UserModel.rows t).

(** [user.addFollower(x)], [user.addFollowing(x)]: nothing is written when
    the two are associated already; otherwise a row is inserted, which the
    database refuses unless both users are stored. *)
Definition add (a : belongsToMany) (t : UserModel.table) (u target : Z)
    (db : gmap string (list (gmap string Z)))
  : failure + gmap string (list (gmap string Z)) :=
  if decide (target ∈ get a u db) then inr db
  else if references t u && references t target
  then inr (<[through a :=
                rows_of a db ++ [<[foreignKey a := u]> {[otherKey a := target]}]]> db)
  else inl SequelizeForeignKeyConstraintError.

(** [user.removeFollower(x)], [user.removeFollowing(x)]. *)
Definition remove (a : belongsToMany) (u target : Z)
    (db : gmap string (list (gmap string Z))) : gmap string (list (gmap string Z)) :=
  <[through a :=
      filter (fun row => ~ (row !! foreignKey a = Some u /\
                            row !! otherKey a = Some target))
             (rows_of a db)]> db.

(** The pair of users a row of [user_followers] links. *)
Definition link (row : gmap string Z) : option Z * option Z :=
  (row !! "followerId", row !! "followingId").

(** The keys of the join table: no pair is linked by two rows, and every row
    links two stored users. *)
Definition keyed (t : UserModel.table) (db : gmap string (list (gmap string Z)))
  : Prop :=
  NoDup (link <$> rows_of following db) /\
  Forall (fun row => exists f g,
              link row = (Some f, Some g) /\
              references t f = true /\ references t g = true)
         (rows_of following db).

Definition nobody : gmap string (list (gmap string Z)) := ∅.

(** Two registered users, with ids 1 and 2. *)
Definition two_users : UserModel.table :=
  UserModel.step UserModel.has_at_sign (UserModel.register "bob@food.ie")
    (UserModel.step UserModel.has_at_sign (UserModel.register "ann@food.ie")
       UserModel.empty).

Lemma get_spec (a : belongsToMany) (u x : Z)
    (db : gmap string (list (gmap string Z))) :
  x ∈ get a u db <->
  exists row, row ∈ rows_of a db /\
              row !! foreignKey a = Some u /\ row !! otherKey a = Some x.
Proof.
  unfold get. rewrite elem_of_list_to_set, list_elem_of_omap. split.
  - intros (row & Hrow & Hx). exists row.
    by destruct (decide (row !! foreignKey a = Some u)).
  - intros (row & Hrow & Hu & Hx). exists row. split; [done|].
    by destruct (decide (row !! foreignKey a = Some u)).
Qed.

Lemma followers_following (db : gmap string (list (gmap string Z))) (a b : Z) :
  b ∈ get followers a db <-> a ∈ get following b db.
Proof.
  rewrite !get_spec. unfold rows_of. simpl.
  split; intros (row & Hrow & H1 & H2); by exists row.
Qed.

(** X13: the two associations are two readings of the same table: [b] is
    among the followers of [a] exactly when [a] is among those [b] is
    following. *)
Theorem follower_iff_following
    (db : gmap string (list (gmap string Z))) (a b : Z) :
  b ∈ get followers a db <-> a ∈ get following b db.
Proof. apply followers_following. Qed.

Lemma rows_of_insert (a : belongsToMany) (rs : list (gmap string Z))
    (db : gmap string (list (gmap string Z))) :
  rows_of a (<[through a := rs]> db) = rs.
Proof. unfold rows_of. by rewrite lookup_insert_eq. Qed.

(** The two ways [add] can succeed, and the one way it fails. *)
Lemma add_cases (a : belongsToMany) (t : UserModel.table) (u target : Z)
    (db : gmap string (list (gmap string Z))) :
  (target ∈ get a u db /\ add a t u target db = inr db) \/
  ((target ∉ get a u db) /\ references t u = true /\ references t target = true /\
   add a t u target db
   = inr (<[through a :=
              rows_of a db ++ [<[foreignKey a := u]> {[otherKey a := target]}]]> db)) \/
  ((target ∉ get a u db) /\ (references t u = false \/ references t target = false) /\
   add a t u target db = inl SequelizeForeignKeyConstraintError).
Proof.
  unfold add. destruct (decide (target ∈ get a u db)) as [Hin|Hout]; [by left|].
  right. destruct (references t u), (references t target); simpl.
  - left. done.
  - right. split; [done|]. split; [by right | done].
  - right. split; [done|]. split; [by left | done].
  - right. split; [done|]. split; [by left | done].
Qed.

Lemma get_insert_row (a : belongsToMany) (u t u' x : Z)
    (db : gmap string (list (gmap string Z))) :
  foreignKey a <> otherKey a ->
  x ∈ get a u' (<[through a :=
                    rows_of a db ++ [<[foreignKey a := u]> {[otherKey a := t]}]]> db)
  <-> x ∈ get a u' db \/ (u' = u /\ x = t).
Proof.
  intros Hkeys. rewrite !get_spec, rows_of_insert. split.
  - intros (row & [Hrow | ->%list_elem_of_singleton]%elem_of_app & Hu & Hx).
    + left. by exists row.
    + right. rewrite lookup_insert_eq in Hu.
      rewrite lookup_insert_ne, lookup_singleton_eq in Hx by done.
      split; congruence.
  - intros [(row & Hrow & Hu & Hx) | [-> ->]].
    + exists row. split; [apply elem_of_app; by left | done].
    + eexists. split; [apply elem_of_app; right; by apply list_elem_of_singleton|].
      rewrite lookup_insert_eq, lookup_insert_ne, lookup_singleton_eq by done.
      done.
Qed.

Lemma get_add (a : belongsToMany) (t : UserModel.table) (u target u' x : Z)
    (db db' : gmap string (list (gmap string Z))) :
  foreignKey a <> otherKey a ->
  add a t u target db = inr db' ->
  x ∈ get a u' db' <-> x ∈ get a u' db \/ (u' = u /\ x = target).
Proof.
  intros Hkeys Hadd.
  destruct (add_cases a t u target db)
    as [[Hin E] | [(Hout & _ & _ & E) | (_ & _ & E)]];
    rewrite E in Hadd; [| |done]; injection Hadd as <-.
  - split; [by left|]. by intros [Hx | [-> ->]].
  - by apply get_insert_row.
Qed.

Lemma get_remove (a : belongsToMany) (u t u' x : Z)
    (db : gmap string (list (gmap string Z))) :
  x ∈ get a u' (remove a u t db) <-> x ∈ get a u' db /\ ~ (u' = u /\ x = t).
Proof.
  unfold remove. rewrite !get_spec, rows_of_insert. split.
  - intros (row & [Hkeep Hrow]%list_elem_of_filter & Hu & Hx).
    split; [by exists row|]. intros [-> ->]. by apply Hkeep.
  - intros [(row & Hrow & Hu & Hx) Hne]. exists row.
    split; [|done]. apply list_elem_of_filter. split; [|done].
    intros [Hu' Hx']. apply Hne. split; congruence.
Qed.

(** The row [b.addFollower(a)] writes is the row [a.addFollowing(b)]
    writes. *)
Lemma add_followers_following (t : UserModel.table) (a b : Z)
    (db : gmap string (list (gmap string Z))) :
  add followers t b a db = add following t a b db.
Proof.
  unfold add.
  destruct (decide (a ∈ get followers b db)) as [H1|H1],
    (decide (b ∈ get following a db)) as [H2|H2]; try done.
  - by apply followers_following in H1.
  - by apply followers_following in H2.
  - by rewrite (andb_comm (references t b)).
Qed.

(** X14: following someone. With [a] and [b] both stored,
    [a.addFollowing(b)] succeeds; afterwards [b] is among those [a] is
    following and [a] among the followers of [b]; [b.addFollower(a)] writes
    the same table; a second call changes nothing; nobody else's following
    changes; and [a.removeFollowing(b)] takes exactly that link away
    again. *)
Theorem addFollowing_links_both_ways
    (t : UserModel.table) (db : gmap string (list (gmap string Z))) (a b : Z) :
  a ∈ UserModel._id <$> UserModel.rows t ->
  b ∈ UserModel._id <$> UserModel.rows t ->
  exists db',
    add following t a b db = inr db' /\
    add followers t b a db = inr db' /\
    b ∈ get following a db' /\
    a ∈ get followers b db' /\
    add following t a b db' = inr db' /\
    (forall x y,
        y ∈ get following x db' <->
        y ∈ get following x db \/ (x = a /\ y = b)) /\
    (forall x y,
        y ∈ get following x (remove following a b db') <->
        y ∈ get following x db /\ ~ (x = a /\ y = b)).
Proof.
  intros Ha Hb.
  assert (Hsome : exists db', add following t a b db = inr db').
  { destruct (add_cases following t a b db)
      as [[_ E] | [(_ & _ & _ & E) | (_ & [Hr | Hr] & _)]]; eauto.
    - unfold references in Hr. by case_bool_decide.
    - unfold references in Hr. by case_bool_decide. }
  destruct Hsome as [db' Hadd]. exists db'.
  assert (Hget : forall x y,
             y ∈ get following x db' <->
             y ∈ get following x db \/ (x = a /\ y = b)).
  { intros x y. by eapply get_add. }
  assert (Hlinked : b ∈ get following a db') by (apply Hget; by right).
  split; [done|]. split; [by rewrite add_followers_following|].
  split; [done|]. split; [by apply followers_following|].
  split; [|split; [done|]].
  - unfold add. by destruct (decide (b ∈ get following a db')).
  - intros x y. rewrite get_remove, Hget. tauto.
Qed.

Lemma addFollowing_links_both_ways_ann_bob :
  1%Z ∈ UserModel._id <$> UserModel.rows two_users /\
  2%Z ∈ UserModel._id <$> UserModel.rows two_users /\
  exists db',
    add following two_users 1 2 nobody = inr db' /\
    add followers two_users 2 1 nobody = inr db' /\
    2%Z ∈ get following 1 db' /\
    1%Z ∈ get followers 2 db' /\
    add following two_users 1 2 db' = inr db' /\
    (forall x y,
        y ∈ get following x db' <->
        y ∈ get following x nobody \/ (x = 1%Z /\ y = 2%Z)) /\
    (forall x y,
        y ∈ get following x (remove following 1 2 db') <->
        y ∈ get following x nobody /\ ~ (x = 1%Z /\ y = 2%Z)).
Proof.
  assert (H1 : 1%Z ∈ UserModel._id <$> UserModel.rows two_users).
  { apply (bool_decide_unpack _). by vm_compute. }
  assert (H2 : 2%Z ∈ UserModel._id <$> UserModel.rows two_users).
  { apply (bool_decide_unpack _). by vm_compute. }
  split; [exact H1|]. split; [exact H2|].
  exact (addFollowing_links_both_ways two_users nobody 1 2 H1 H2).
Defined.

Lemma references_spec (t : UserModel.table) (id : Z) :
  references t id = true <-> id ∈ UserModel._id <$> UserModel.rows t.
Proof. unfold references. by rewrite bool_decide_eq_true. Qed.

Lemma keyed_add (t : UserModel.table) (x y : Z)
    (db db' : gmap string (list (gmap string Z))) :
  keyed t db -> add following t x y db = inr db' -> keyed t db'.
Proof.
  intros [Hnd Hrefs] Hadd.
  destruct (add_cases following t x y db)
    as [[Hin E] | [(Hout & Hx & Hy & E) | (_ & _ & E)]];
    rewrite E in Hadd; [| |done]; injection Hadd as <-; [done|].
  unfold keyed. rewrite rows_of_insert. split.
  - rewrite fmap_app. apply NoDup_app. split; [done|].
    split; [|apply NoDup_singleton].
    intros l (row & Hl & Hrow)%list_elem_of_fmap Hnew%list_elem_of_singleton.
    apply Hout, get_spec. exists row. split; [done|].
    subst l. unfold link in Hnew. simpl in *.
    rewrite lookup_insert_eq, lookup_insert_ne, lookup_singleton_eq in Hnew by done.
    by injection Hnew as -> ->.
  - apply Forall_app. split; [done|]. apply Forall_singleton.
    exists x, y. split; [|done]. unfold link. simpl.
    by rewrite lookup_insert_eq, lookup_insert_ne, lookup_singleton_eq.
Qed.

(** X15: the keys of the join table are kept. On a table where no pair is
    linked twice and every row links stored users, [x.addFollowing(y)]
    either succeeds and leaves such a table, with [y] among those [x] is
    following, or is refused for a foreign key, which happens exactly when
    the link is new and one of the two is not stored; [x.removeFollowing(y)]
    leaves such a table as well. *)
Theorem following_stays_distinct
    (t : UserModel.table) (db : gmap string (list (gmap string Z))) (x y : Z) :
  keyed t db ->
  match add following t x y db with
  | inr db' => keyed t db' /\ y ∈ get following x db'
  | inl SequelizeForeignKeyConstraintError =>
      (y ∉ get following x db) /\
      (x ∉ UserModel._id <$> UserModel.rows t \/
       y ∉ UserModel._id <$> UserModel.rows t)
  end /\
  (add following t x y db = inl SequelizeForeignKeyConstraintError <->
   (y ∉ get following x db) /\
   (x ∉ UserModel._id <$> UserModel.rows t \/
    y ∉ UserModel._id <$> UserModel.rows t)) /\
  keyed t (remove following x y db).
Proof.
  intros Hk. split; [|split].
  - destruct (add following t x y db) as [[]|db'] eqn:E.
    + destruct (add_cases following t x y db)
        as [[_ E'] | [(_ & _ & _ & E') | (Hout & Hr & _)]];
        [congruence | congruence |].
      split; [done|]. rewrite <- !references_spec.
      destruct Hr as [-> | ->]; [left | right]; done.
    + split; [by eapply keyed_add|].
      eapply get_add; [done | exact E | by right].
  - destruct (add_cases following t x y db)
      as [[Hin E] | [(Hout & Hx & Hy & E) | (Hout & Hr & E)]]; rewrite E.
    + split; [done | by intros [? _]].
    + split; [done|]. rewrite <- !references_spec, Hx, Hy.
      intros [_ [? | ?]]; done.
    + split; [|done]. intros _. split; [done|]. rewrite <- !references_spec.
      destruct Hr as [-> | ->]; [left | right]; done.
  - destruct Hk as [Hnd Hrefs]. unfold keyed, remove. rewrite rows_of_insert.
    split.
    + by apply UserModel.NoDup_fmap_filter.
    + by apply UserModel.Forall_filter_keep.
Qed.

Lemma following_stays_distinct_stranger :
  keyed two_users nobody /\
  match add following two_users 1 99 nobody with
  | inr db' => keyed two_users db' /\ 99%Z ∈ get following 1 db'
  | inl SequelizeForeignKeyConstraintError =>
      (99%Z ∉ get following 1 nobody) /\
      (1%Z ∉ UserModel._id <$> UserModel.rows two_users \/
       99%Z ∉ UserModel._id <$> UserModel.rows two_users)
  end /\
  (add following two_users 1 99 nobody = inl SequelizeForeignKeyConstraintError <->
   (99%Z ∉ get following 1 nobody) /\
   (1%Z ∉ UserModel._id <$> UserModel.rows two_users \/
    99%Z ∉ UserModel._id <$> UserModel.rows two_users)) /\
  keyed two_users (remove following 1 99 nobody).
Proof.
  assert (Hk : keyed two_users nobody).
  { split; [apply NoDup_nil_2 | apply Forall_nil_2]. }
  split; [exact Hk|].
  exact (following_stays_distinct two_users nobody 1 99 Hk).
Defined.

Example follow_and_unfollow :
  add following two_users 1 2 nobody
  = inr {[ "user_followers" :=
             [ {[ "followerId" := 1%Z; "followingId" := 2%Z ]} ] ]} /\
  add following two_users 1 99 nobody = inl SequelizeForeignKeyConstraintError /\
  add following two_users 99 1 nobody = inl SequelizeForeignKeyConstraintError /\
  (exists db', add following two_users 1 1 nobody = inr db' /\
               get followers 1 db' = {[ 1%Z ]}) /\
  (exists db', add following two_users 1 2 nobody = inr db' /\
               get following 1 db' = {[ 2%Z ]} /\
               get followers 2 db' = {[ 1%Z ]} /\
               get following 1 (remove following 1 2 db') = ∅).
Proof.
  split; [by vm_compute|]. split; [by vm_compute|]. split; [by vm_compute|].
  split; eexists; (split; [reflexivity|]).
  - apply set_eq. intros z. rewrite get_spec. vm_compute rows_of.
    rewrite elem_of_singleton. split.
    + intros (row & ->%list_elem_of_singleton & _ & [= <-]). done.
    + intros ->. eexists. split; [by apply list_elem_of_singleton | done].
  - split_and!; apply set_eq; intros z; rewrite get_spec; vm_compute rows_of;
      rewrite ?elem_of_singleton, ?elem_of_empty.
    + split.
      * intros (row & ->%list_elem_of_singleton & _ & [= <-]). done.
      * intros ->. eexists. split; [by apply list_elem_of_singleton | done].
    + split.
      * intros (row & ->%list_elem_of_singleton & _ & [= <-]). done.
      * intros ->. eexists. split; [by apply list_elem_of_singleton | done].
    + split; [|done]. intros (row & Hrow & _). by apply elem_of_nil in Hrow.
Qed.

End Followers.
